(** * Deadlock-Automation: resource ledger, safety check, deadlock
      detection and resolution, tick schedulers

    A shallow embedding of [deadlock_core.py], [scheduling.py] and
    [deadlock_resolution.py].

    Conventions of the embedding.
    - A numpy integer vector is a [list Z] whose entries are 64-bit signed
      integers (numpy's default integer type); the arithmetic of the arrays
      wraps around at 64 bits, as numpy's does, without raising.
    - A Python exception (a numpy shape mismatch, an index out of range) is
      [None] in the [option] monad; a normal return is [Some].  The state a
      raising call leaves behind is not modelled.
    - Python objects held by reference (the processes of a manager or of a
      scheduler) live in one list, and every other holder (the cached
      deadlock set, a ready queue, the running slot) names them by their
      position in that list. *)

From stdpp Require Import base option list numbers relations sorting.
From Stdlib Require Import ZArith Lia.

Local Open Scope Z_scope.

(** ** numpy: one-dimensional integer arrays, as [list Z]

    The arrays hold numpy's default integers: an entry is a value from
    [-2^63] to [2^63 - 1], and arithmetic on entries wraps around in two's
    complement. *)

Module np.

(** The values an entry can hold. *)
Definition int64 (z : Z) : Prop := - 2 ^ 63 ≤ z < 2 ^ 63.

(** The int64 value that the integer [z] wraps around to. *)
Definition wrap (z : Z) : Z := (z + 2 ^ 63) mod 2 ^ 64 - 2 ^ 63.

(** Addition and subtraction of two entries. *)
Definition add64 (x y : Z) : Z := wrap (x + y).
Definition sub64 (x y : Z) : Z := wrap (x - y).

(** Element-wise binary operation with numpy's broadcasting rule for two
    one-dimensional arrays: equal lengths, or one of the two has length
    one; anything else raises [ValueError]. *)
Definition broadcast {A} (f : Z → Z → A) (a b : list Z) : option (list A) :=
  if decide (length a = length b) then Some (zip_with f a b)
  else match a, b with
       | _, [y] => Some ((λ x, f x y) <$> a)
       | [x], _ => Some (f x <$> b)
       | _, _ => None
       end.

(** In-place operation [a op= b]: the broadcast result must have the shape
    of [a]. *)
Definition inplace (f : Z → Z → Z) (a b : list Z) : option (list Z) :=
  if decide (length b = length a) then Some (zip_with f a b)
  else match b with
       | [y] => Some ((λ x, f x y) <$> a)
       | _ => None
       end.

(** [a += b], [a -= b] *)
Definition iadd := inplace add64.
Definition isub := inplace sub64.

(** [a - b] (a fresh array) *)
Definition sub := broadcast sub64.

(** [np.any(a > b)] *)
Definition any_gt (a b : list Z) : option bool :=
  existsb id <$> broadcast (λ x y, y <? x) a b.

(** [np.all(a <= b)] *)
Definition all_le (a b : list Z) : option bool :=
  forallb id <$> broadcast Z.leb a b.

(** [np.any(a > 0)], [np.any(a < 0)] *)
Definition any_pos (a : list Z) : bool := existsb (λ x, 0 <? x) a.
Definition any_neg (a : list Z) : bool := existsb (λ x, x <? 0) a.

(** [np.sum(a)]: the sum is accumulated in an int64 *)
Definition sum (a : list Z) : Z := foldr add64 0 a.

(** [np.zeros_like(a)] *)
Definition zeros_like (a : list Z) : list Z := (λ _, 0) <$> a.


End np.

(** ** [deadlock_core.Process] *)

Record Process := mkProcess {
  pid : Z;
  max_resources : list Z;
  allocated_resources : list Z;
  needed_resources : list Z;
  finished : bool;
  waiting_time : Z;
  execution_time : Z;
  priority : Z;
  remaining_time : Z;
  (* attributes attached from outside the class, read with [getattr] *)
  burst_time : option Z;
  arrival_time : option Z
}.

Definition set_allocated (a : list Z) (p : Process) : Process :=
  mkProcess (pid p) (max_resources p) a (needed_resources p) (finished p)
    (waiting_time p) (execution_time p) (priority p) (remaining_time p)
    (burst_time p) (arrival_time p).

Definition set_needed (d : list Z) (p : Process) : Process :=
  mkProcess (pid p) (max_resources p) (allocated_resources p) d (finished p)
    (waiting_time p) (execution_time p) (priority p) (remaining_time p)
    (burst_time p) (arrival_time p).

(** [Process.__init__] *)
Definition Process_init (pid : Z) (max_resources : list Z)
    (allocated_resources needed_resources : option (list Z)) : option Process :=
  let alloc := default (np.zeros_like max_resources) allocated_resources in
  need ← match needed_resources with
         | None => np.sub max_resources alloc
         | Some d => Some d
         end;
  Some (mkProcess pid max_resources alloc need false 0 0 0 0 None None).

(** ** [deadlock_core.ResourceManager] *)

Record ResourceManager := mkRM {
  available_resources : list Z;
  processes : list Process;
  (* the cached result of the last detection: positions in [processes] *)
  deadlock_processes : list nat
}.

Definition set_available (a : list Z) (rm : ResourceManager) : ResourceManager :=
  mkRM a (processes rm) (deadlock_processes rm).

Definition set_process (k : nat) (p : Process) (rm : ResourceManager)
    : ResourceManager :=
  mkRM (available_resources rm) (<[k := p]> (processes rm)) (deadlock_processes rm).

Definition set_deadlock_processes (d : list nat) (rm : ResourceManager)
    : ResourceManager :=
  mkRM (available_resources rm) (processes rm) d.

Definition ResourceManager_init (available : list Z) : ResourceManager :=
  mkRM available [] [].

Definition add_process (p : Process) (rm : ResourceManager) : ResourceManager :=
  mkRM (available_resources rm) (processes rm ++ [p]) (deadlock_processes rm).

(** [next((p for p in self.processes if p.pid == pid), None)]: the first
    process with that pid, with its position. *)
Definition find_process (q : Z) (rm : ResourceManager) : option (nat * Process) :=
  list_find (λ p, pid p = q) (processes rm).

(** Every vector of the ledger has one entry per resource type. *)
Definition wf_process (n : nat) (p : Process) : Prop :=
  length (max_resources p) = n ∧
  length (allocated_resources p) = n ∧
  length (needed_resources p) = n.

Definition wf (n : nat) (rm : ResourceManager) : Prop :=
  length (available_resources rm) = n ∧ Forall (wf_process n) (processes rm).

(** *** [is_safe] *)

(** The state of the scan: [work], [finish], [found]. *)
Definition scan_state : Type := list Z * list bool * bool.

(** The body of [for i, p in enumerate(self.processes)]. *)
Definition scan_body (i : nat) (p : Process) (st : scan_state) : option scan_state :=
  let '(work, finish, found) := st in
  match finish !! i with
  | None => None
  | Some true => Some st
  | Some false =>
      ok ← np.all_le (needed_resources p) work;
      if ok : bool then
        work' ← np.iadd work (allocated_resources p);
        Some (work', <[i := true]> finish, true)
      else Some st
  end.

(** The [for] loop, from position [i] on. *)
Fixpoint scan_from (i : nat) (ps : list Process) (st : scan_state)
    : option scan_state :=
  match ps with
  | [] => Some st
  | p :: ps' => st' ← scan_body i p st; scan_from (S i) ps' st'
  end.

(** The [while found] loop; [fuel] bounds the number of passes. *)
Fixpoint safe_loop (fuel : nat) (ps : list Process) (work : list Z)
    (finish : list bool) : option (list Z * list bool) :=
  match fuel with
  | O => None
  | S fuel' =>
      '(work', finish', found) ← scan_from 0 ps (work, finish, false);
      if found : bool then safe_loop fuel' ps work' finish'
      else Some (work', finish')
  end.

(** [work] and [finish] when the [while] loop exits.  Every pass but the
    last finishes a process, so one pass more than there are processes is
    enough ([safe_run_total]). *)
Definition safe_run (rm : ResourceManager) : option (list Z * list bool) :=
  safe_loop (S (length (processes rm))) (processes rm)
    (available_resources rm) (replicate (length (processes rm)) false).

Definition is_safe (rm : ResourceManager) : option bool :=
  '(_, finish) ← safe_run rm; Some (forallb id finish).

(** *** [request_resources], [release_resources] *)

Definition request_resources (q : Z) (request : list Z) (rm : ResourceManager)
    : option (bool * ResourceManager) :=
  match find_process q rm with
  | None => Some (false, rm)
  | Some (k, process) =>
      over_need ← np.any_gt request (needed_resources process);
      invalid ← (if over_need : bool then Some true
                 else np.any_gt request (available_resources rm));
      if invalid : bool then Some (false, rm)
      else
        (* temporarily allocate *)
        avail ← np.isub (available_resources rm) request;
        alloc ← np.iadd (allocated_resources process) request;
        need ← np.isub (needed_resources process) request;
        let rm1 :=
          set_process k (set_needed need (set_allocated alloc process))
            (set_available avail rm) in
        safe ← is_safe rm1;
        if safe : bool then Some (true, rm1)
        else
          (* roll back *)
          avail' ← np.iadd avail request;
          alloc' ← np.isub alloc request;
          need' ← np.iadd need request;
          Some (false,
                set_process k (set_needed need' (set_allocated alloc' process))
                  (set_available avail' rm1))
  end.

Definition release_resources (q : Z) (resources : list Z) (rm : ResourceManager)
    : option (bool * ResourceManager) :=
  match find_process q rm with
  | None => Some (false, rm)
  | Some (k, process) =>
      invalid ← np.any_gt resources (allocated_resources process);
      if invalid : bool then Some (false, rm)
      else
        avail ← np.iadd (available_resources rm) resources;
        alloc ← np.isub (allocated_resources process) resources;
        need ← np.iadd (needed_resources process) resources;
        Some (true,
              set_process k (set_needed need (set_allocated alloc process))
                (set_available avail rm))
  end.

(** ** The resource-allocation graph *)

(** Node names: [f"P{p.pid}"] and [f"R{i}"]. *)
Inductive node := P (q : Z) | R (i : nat).

#[global] Instance node_eq_dec : EqDecision node.
Proof. solve_decision. Defined.

Definition edge : Type := node * node.

(** [networkx.DiGraph]: the successor lists, nodes and successors both in
    insertion order. *)
Definition DiGraph : Type := list (node * list node).

Definition nodes (g : DiGraph) : list node := g.*1.

(** [n in graph] *)
Definition has_node (n : node) (g : DiGraph) : bool := bool_decide (n ∈ nodes g).

(** [graph.edges] *)
Definition edges (g : DiGraph) : list edge :=
  g ≫= (λ uvs, (λ v, (uvs.1, v)) <$> uvs.2).

Definition add_node (n : node) (g : DiGraph) : DiGraph :=
  if has_node n g then g else g ++ [(n, [])].

Definition add_successor (u v : node) (uvs : node * list node) : node * list node :=
  if decide (uvs.1 = u)
  then (uvs.1, if decide (v ∈ uvs.2) then uvs.2 else uvs.2 ++ [v])
  else uvs.

Definition add_edge (u v : node) (g : DiGraph) : DiGraph :=
  add_successor u v <$> add_node v (add_node u g).

(** A directed cycle of [g] as [networkx.find_cycle] reports one: a
    non-empty list of edges of [g], each starting where the one before
    ends, the last ending where the first starts. *)
Fixpoint chain (c : list edge) : Prop :=
  match c with
  | e1 :: (e2 :: _) as c' => e1.2 = e2.1 ∧ chain c'
  | _ => True
  end.

Definition is_cycle (g : DiGraph) (c : list edge) : Prop :=
  c ≠ [] ∧ Forall (λ e, e ∈ edges g) c ∧ chain c ∧
  (snd <$> last c) = (fst <$> head c).

(** What the code relies on from [networkx.find_cycle(graph)]: it returns
    the edges of a cycle of the graph, and raises [NetworkXNoCycle] (here
    [None]) only when the graph has no cycle. *)
Definition nx_find_cycle_contract (find_cycle : DiGraph → option (list edge)) : Prop :=
  ∀ g, match find_cycle g with
       | Some c => is_cycle g c
       | None => ∀ c, ¬ is_cycle g c
       end.

(** *** [detect_deadlock] *)

(** [for i, alloc in enumerate(p.allocated_resources)], from index [i] on. *)
Fixpoint allocation_edges (q : Z) (i : nat) (alloc : list Z) (g : DiGraph)
    : DiGraph :=
  match alloc with
  | [] => g
  | a :: rest =>
      allocation_edges q (S i) rest
        (if 0 <? a then add_edge (R i) (P q) (add_node (R i) g) else g)
  end.

(** The first loop over the processes. *)
Definition allocation_graph (ps : list Process) : DiGraph :=
  foldl (λ g p, allocation_edges (pid p) 0 (allocated_resources p)
                  (add_node (P (pid p)) g)) [] ps.

(** [for i, need in enumerate(p.needed_resources)], from index [i] on;
    [self.available_resources[i]] raises when [i] is out of range. *)
Fixpoint request_edges (avail : list Z) (q : Z) (i : nat) (need : list Z)
    (g : DiGraph) : option DiGraph :=
  match need with
  | [] => Some g
  | d :: rest =>
      g' ← (if 0 <? d then
              a ← avail !! i;
              Some (if (a <? d) && has_node (R i) g
                    then add_edge (P q) (R i) g else g)
            else Some g);
      request_edges avail q (S i) rest g'
  end.

(** The second loop over the processes. *)
Fixpoint request_graph (avail : list Z) (ps : list Process) (g : DiGraph)
    : option DiGraph :=
  match ps with
  | [] => Some g
  | p :: ps' =>
      g' ← request_edges avail (pid p) 0 (needed_resources p) g;
      request_graph avail ps' g'
  end.

Definition build_graph (rm : ResourceManager) : option DiGraph :=
  request_graph (available_resources rm) (processes rm)
    (allocation_graph (processes rm)).

(** Positions of the elements of [l] that satisfy [f], in order. *)
Definition positions {A} (f : A → bool) (l : list A) : list nat :=
  (filter (λ kx, f kx.2 = true) (zip (seq 0 (length l)) l)).*1.

(** [{u for u, v in cycle}] *)
Definition cycle_sources (cycle : list edge) : list node := cycle.*1.

(** [[p for p in self.processes if f"P{p.pid}" in {u for u,v in cycle}]] *)
Definition processes_on_cycle (cycle : list edge) (ps : list Process) : list nat :=
  positions (λ p, bool_decide (P (pid p) ∈ cycle_sources cycle)) ps.

(** Returns the deadlocked processes (as positions) and stores them. *)
Definition detect_deadlock (find_cycle : DiGraph → option (list edge))
    (rm : ResourceManager) : option (list nat * ResourceManager) :=
  graph ← build_graph rm;
  match find_cycle graph with
  | Some cycle =>
      let d := processes_on_cycle cycle (processes rm) in
      Some (d, set_deadlock_processes d rm)
  | None => Some ([], set_deadlock_processes [] rm)
  end.

(** *** [resolve_deadlock_by_preemption] *)

(** The body of [for process in deadlocked_processes]. *)
Definition preempt (k : nat) (st : list nat * ResourceManager)
    : option (list nat * ResourceManager) :=
  let '(preempted, rm) := st in
  process ← processes rm !! k;
  if np.any_pos (allocated_resources process) then
    avail ← np.iadd (available_resources rm) (allocated_resources process);
    need ← np.iadd (needed_resources process) (allocated_resources process);
    let process' :=
      set_allocated (np.zeros_like (allocated_resources process))
        (set_needed need process) in
    Some (preempted ++ [k], set_process k process' (set_available avail rm))
  else Some st.

Fixpoint preempt_all (ks : list nat) (st : list nat * ResourceManager)
    : option (list nat * ResourceManager) :=
  match ks with
  | [] => Some st
  | k :: ks' => st' ← preempt k st; preempt_all ks' st'
  end.

Definition resolve_deadlock_by_preemption
    (find_cycle : DiGraph → option (list edge)) (rm : ResourceManager)
    : option (list nat * ResourceManager) :=
  '(deadlocked, rm1) ← detect_deadlock find_cycle rm;
  match deadlocked with
  | [] => Some ([], rm1)
  | _ => preempt_all deadlocked ([], rm1)
  end.

(** *** [resolve_deadlock_by_termination] *)

(** [sorted(l, key=..., reverse=True)]: descending keys, equal keys in
    their original order. *)
Fixpoint insert_desc (kx : Z * nat) (l : list (Z * nat)) : list (Z * nat) :=
  match l with
  | [] => [kx]
  | ky :: l' => if kx.1 <? ky.1 then ky :: insert_desc kx l' else kx :: l
  end.

Definition sorted_desc (l : list (Z * nat)) : list (Z * nat) :=
  foldr insert_desc [] l.

(** The deadlocked processes by [np.sum(x.allocated_resources)], largest
    first. *)
Definition termination_order (rm : ResourceManager) : option (list nat) :=
  keyed ← mapM (λ k, p ← processes rm !! k;
                     Some (np.sum (allocated_resources p), k))
             (deadlock_processes rm);
  Some (sorted_desc keyed).*2.

(** Release everything process [k] holds and reset its need. *)
Definition terminate (k : nat) (rm : ResourceManager) : option ResourceManager :=
  p ← processes rm !! k;
  avail ← np.iadd (available_resources rm) (allocated_resources p);
  let p' :=
    set_needed (max_resources p)
      (set_allocated (np.zeros_like (allocated_resources p)) p) in
  Some (set_process k p' (set_available avail rm)).

(** The [for p in sorted(...)] loop with its [break]. *)
Fixpoint terminate_loop (find_cycle : DiGraph → option (list edge))
    (order : list nat) (terminated : list nat) (rm : ResourceManager)
    : option (list nat * ResourceManager) :=
  match order with
  | [] => Some (terminated, rm)
  | k :: rest =>
      rm1 ← terminate k rm;
      '(deadlocked, rm2) ← detect_deadlock find_cycle rm1;
      match deadlocked with
      | [] => Some (terminated ++ [k], rm2)
      | _ => terminate_loop find_cycle rest (terminated ++ [k]) rm2
      end
  end.

Definition resolve_deadlock_by_termination
    (find_cycle : DiGraph → option (list edge)) (rm : ResourceManager)
    : option (list nat * ResourceManager) :=
  rm0 ← match deadlock_processes rm with
        | [] => snd <$> detect_deadlock find_cycle rm
        | _ => Some rm
        end;
  order ← termination_order rm0;
  terminate_loop find_cycle order [] rm0.

(** ** [scheduling.py] *)

Module Sched.

(** One entry of [history]; [quantum] is written by Round-Robin only,
    [available] by the Banker's scheduler only. *)
Record HistoryRecord := mkRecord {
  h_time : Z;
  h_running : Z;
  h_ready_queue : list Z;
  h_completed : list Z;
  h_quantum : option Z;
  h_available : option (list Z)
}.

(** A scheduler object.  [procs] is [self.processes]; the ready queue, the
    running slot and the completed list hold positions in [procs]. *)
Record Scheduler := mkScheduler {
  procs : list Process;
  time : Z;
  running_process : option nat;
  ready_queue : list nat;
  completed_processes : list nat;
  history : list HistoryRecord;
  time_quantum : Z;
  current_quantum : Z;
  resource_manager : ResourceManager
}.

Definition set_procs (ps : list Process) (s : Scheduler) : Scheduler :=
  mkScheduler ps (time s) (running_process s) (ready_queue s)
    (completed_processes s) (history s) (time_quantum s) (current_quantum s)
    (resource_manager s).

Definition set_time (t : Z) (s : Scheduler) : Scheduler :=
  mkScheduler (procs s) t (running_process s) (ready_queue s)
    (completed_processes s) (history s) (time_quantum s) (current_quantum s)
    (resource_manager s).

Definition set_running (r : option nat) (s : Scheduler) : Scheduler :=
  mkScheduler (procs s) (time s) r (ready_queue s)
    (completed_processes s) (history s) (time_quantum s) (current_quantum s)
    (resource_manager s).

Definition set_ready_queue (q : list nat) (s : Scheduler) : Scheduler :=
  mkScheduler (procs s) (time s) (running_process s) q
    (completed_processes s) (history s) (time_quantum s) (current_quantum s)
    (resource_manager s).

Definition set_completed (c : list nat) (s : Scheduler) : Scheduler :=
  mkScheduler (procs s) (time s) (running_process s) (ready_queue s)
    c (history s) (time_quantum s) (current_quantum s) (resource_manager s).

Definition set_history (h : list HistoryRecord) (s : Scheduler) : Scheduler :=
  mkScheduler (procs s) (time s) (running_process s) (ready_queue s)
    (completed_processes s) h (time_quantum s) (current_quantum s)
    (resource_manager s).

Definition set_current_quantum (c : Z) (s : Scheduler) : Scheduler :=
  mkScheduler (procs s) (time s) (running_process s) (ready_queue s)
    (completed_processes s) (history s) (time_quantum s) c (resource_manager s).

Definition set_resource_manager (rm : ResourceManager) (s : Scheduler) : Scheduler :=
  mkScheduler (procs s) (time s) (running_process s) (ready_queue s)
    (completed_processes s) (history s) (time_quantum s) (current_quantum s) rm.

(** Updates of the scheduling fields of a process. *)
Definition set_times (remaining waiting execution : Z) (p : Process) : Process :=
  mkProcess (pid p) (max_resources p) (allocated_resources p)
    (needed_resources p) (finished p) waiting execution (priority p) remaining
    (burst_time p) (arrival_time p).

(** [remaining_time -= 1; execution_time += 1] *)
Definition execute (p : Process) : Process :=
  set_times (remaining_time p - 1) (waiting_time p) (execution_time p + 1) p.

(** [waiting_time += 1] *)
Definition wait (p : Process) : Process :=
  set_times (remaining_time p) (waiting_time p + 1) (execution_time p) p.

(** The initialisation of a process in [Scheduler.__init__] and
    [add_process]. *)
Definition init_process (p : Process) : Process :=
  set_times (default 10 (burst_time p)) 0 0 p.

(** Apply [f] to the object at position [k]. *)
Definition update_process (f : Process → Process) (k : nat) (ps : list Process)
    : option (list Process) :=
  p ← ps !! k; Some (<[k := f p]> ps).

(** [[p.pid for p in queue]] *)
Definition pids (ps : list Process) (queue : list nat) : option (list Z) :=
  mapM (λ k, pid <$> ps !! k) queue.

(** [Scheduler.__init__] *)
Definition Scheduler_init (ps : list Process) : Scheduler :=
  mkScheduler (init_process <$> ps) 0 None [] [] [] 0 0 (mkRM [] [] []).


(** [Scheduler.update_waiting_times] *)
Fixpoint update_waiting_times (queue : list nat) (ps : list Process)
    : option (list Process) :=
  match queue with
  | [] => Some ps
  | k :: queue' => ps' ← update_process wait k ps; update_waiting_times queue' ps'
  end.

(** [Scheduler.step]: the base implementation, which the variants call
    last.  (It returns [False]; the variants return nothing.) *)
Definition Scheduler_step (s : Scheduler) : Scheduler :=
  set_time (time s + 1) s.

(** [sorted(l, key=...)]: ascending keys, equal keys in their original
    order. *)
Fixpoint insert_asc (kx : Z * nat) (l : list (Z * nat)) : list (Z * nat) :=
  match l with
  | [] => [kx]
  | ky :: l' => if ky.1 <? kx.1 then ky :: insert_asc kx l' else kx :: l
  end.

(** [FCFSScheduler.__init__] *)
Definition FCFS_init (ps : list Process) : Scheduler :=
  let s := Scheduler_init ps in
  let keyed :=
    imap (λ k p, (default 0 (arrival_time p), k)) (procs s) in
  set_ready_queue (foldr insert_asc [] keyed).*2 s.

(** [if self.running_process is None and self.ready_queue: popleft()] *)
Definition dispatch (s : Scheduler) : Scheduler :=
  match running_process s, ready_queue s with
  | None, k :: queue => set_running (Some k) (set_ready_queue queue s)
  | _, _ => s
  end.

(** The part of every [step] that runs process [k] for one tick and writes
    the history record; [extra] fills the variant's own fields. *)
Definition run_and_record (k : nat)
    (extra : Scheduler → option Z * option (list Z)) (s : Scheduler)
    : option Scheduler :=
  ps ← update_process execute k (procs s);
  ps' ← update_waiting_times (ready_queue s) ps;
  p ← ps' !! k;
  queue_ids ← pids ps' (ready_queue s);
  completed_ids ← pids ps' (completed_processes s);
  let record :=
    mkRecord (time s) (pid p) queue_ids completed_ids (extra s).1 (extra s).2 in
  Some (set_history (history s ++ [record]) (set_procs ps' s)).

(** The body of [if self.running_process:] in [FCFSScheduler.step], for
    the running process [k]. *)
Definition FCFS_run (k : nat) (s : Scheduler) : option Scheduler :=
  s2 ← run_and_record k (λ _, (None, None)) s;
  p ← procs s2 !! k;
  Some (if remaining_time p <=? 0
        then set_running None
               (set_completed (completed_processes s2 ++ [k]) s2)
        else s2).

(** [FCFSScheduler.step] *)
Definition FCFS_step (s : Scheduler) : option Scheduler :=
  let s1 := dispatch s in
  s3 ← match running_process s1 with
       | Some k => FCFS_run k s1
       | None => Some s1
       end;
  Some (Scheduler_step s3).


(** The body of [if self.running_process:] in
    [RoundRobinScheduler.step]. *)
Definition RoundRobin_run (k : nat) (s : Scheduler) : option Scheduler :=
  let s1 := set_current_quantum (current_quantum s + 1) s in
  s2 ← run_and_record k (λ s, (Some (current_quantum s), None)) s1;
  p ← procs s2 !! k;
  Some (if remaining_time p <=? 0
        then set_running None
               (set_completed (completed_processes s2 ++ [k]) s2)
        else if time_quantum s2 <=? current_quantum s2
        then set_running None
               (set_ready_queue (ready_queue s2 ++ [k]) s2)
        else s2).

(** [RoundRobinScheduler.step] *)
Definition RoundRobin_step (s : Scheduler) : option Scheduler :=
  let s1 :=
    match running_process s, ready_queue s with
    | None, _ :: _ => set_current_quantum 0 (dispatch s)
    | _, _ => s
    end in
  s3 ← match running_process s1 with
       | Some k => RoundRobin_run k s1
       | None => Some s1
       end;
  Some (Scheduler_step s3).

(** [BankersScheduler.__init__] *)
Definition Bankers_init (rm : ResourceManager) (ps : list Process) : Scheduler :=
  let s := Scheduler_init ps in
  mkScheduler (procs s) 0 None (seq 0 (length ps)) [] [] 0 0 rm.

(** [all(f(x) for x in l)], which stops at the first false. *)
Fixpoint all_of {A} (f : A → option bool) (l : list A) : option bool :=
  match l with
  | [] => Some true
  | x :: l' => b ← f x; if b : bool then all_of f l' else Some false
  end.

(** [BankersScheduler.is_safe(process)], [process] at position [k] *)
Definition Bankers_is_safe (s : Scheduler) (k : nat) : option bool :=
  process ← procs s !! k;
  work ← np.sub (available_resources (resource_manager s))
                (needed_resources process);
  if np.any_neg work then Some false
  else
    let temp_processes := filter (λ j, j ≠ k) (ready_queue s) in
    all_of (λ j, p ← procs s !! j; np.all_le (needed_resources p) work)
           temp_processes.

(** The admission test of the [for i, p in enumerate(self.ready_queue)]
    loop. *)
Definition admissible (s : Scheduler) (k : nat) : option bool :=
  p ← procs s !! k;
  fits ← np.all_le (needed_resources p)
                   (available_resources (resource_manager s));
  if fits : bool then Bankers_is_safe s k else Some false.

(** The loop itself, over the part [queue] of the ready queue that starts
    at index [i]: the index and the position of the first admissible
    process. *)
Fixpoint find_admissible (s : Scheduler) (i : nat) (queue : list nat)
    : option (option (nat * nat)) :=
  match queue with
  | [] => Some None
  | k :: queue' =>
      ok ← admissible s k;
      if ok : bool then Some (Some (i, k)) else find_admissible s (S i) queue'
  end.

(** Admit the process at index [i] of the queue, position [k]: take it off
    the queue and allocate everything it needs. *)
Definition allocate_to (i k : nat) (s : Scheduler) : option Scheduler :=
  p ← procs s !! k;
  let rm := resource_manager s in
  avail ← np.isub (available_resources rm) (needed_resources p);
  alloc ← np.iadd (allocated_resources p) (needed_resources p);
  let p' := set_needed (np.zeros_like (needed_resources p))
              (set_allocated alloc p) in
  Some (set_resource_manager (set_available avail rm)
          (set_procs (<[k := p']> (procs s))
             (set_ready_queue (delete i (ready_queue s))
                (set_running (Some k) s)))).

(** The body of [if self.running_process is None:] in
    [BankersScheduler.step]. *)
Definition Bankers_dispatch (s : Scheduler) : option Scheduler :=
  found ← find_admissible s 0 (ready_queue s);
  match found with
  | Some (i, k) => allocate_to i k s
  | None => Some s
  end.

(** The body of [if self.running_process:] in [BankersScheduler.step]. *)
Definition Bankers_run (k : nat) (s : Scheduler) : option Scheduler :=
  s2 ← run_and_record k
         (λ s, (None, Some (available_resources (resource_manager s)))) s;
  p ← procs s2 !! k;
  if remaining_time p <=? 0 then
    let rm := resource_manager s2 in
    avail ← np.iadd (available_resources rm) (allocated_resources p);
    Some (set_running None
            (set_completed (completed_processes s2 ++ [k])
               (set_resource_manager (set_available avail rm) s2)))
  else Some s2.

(** [BankersScheduler.step] *)
Definition Bankers_step (s : Scheduler) : option Scheduler :=
  s1 ← match running_process s with
       | None => Bankers_dispatch s
       | Some _ => Some s
       end;
  s3 ← match running_process s1 with
       | Some k => Bankers_run k s1
       | None => Some s1
       end;
  Some (Scheduler_step s3).

(** [n] calls of a [step]. *)
Fixpoint steps (step : Scheduler → option Scheduler) (n : nat) (s : Scheduler)
    : option Scheduler :=
  match n with
  | O => Some s
  | S n' => s' ← step s; steps step n' s'
  end.

(** The algorithms [run_scheduling_simulation] knows by name, and the
    [step] of each. *)
Inductive algorithm := fcfs | rr | bankers.

Definition step (a : algorithm) : Scheduler → option Scheduler :=
  match a with
  | fcfs => FCFS_step
  | rr => RoundRobin_step
  | bankers => Bankers_step
  end.






(** A tick on which nothing runs: no process is running and none can be
    taken from the ready queue. *)
Definition idle (a : algorithm) (s : Scheduler) : Prop :=
  running_process s = None ∧
  match a with
  | fcfs | rr => ready_queue s = []
  | bankers => find_admissible s 0 (ready_queue s) = Some None
  end.

(** A scheduler whose references are references to its processes; for the
    Banker's scheduler the resource vectors have one length. *)
Definition valid (ps : list Process) (k : nat) : Prop := (k < length ps)%nat.

Definition well_formed (a : algorithm) (s : Scheduler) : Prop :=
  (∀ k, running_process s = Some k → valid (procs s) k) ∧
  Forall (valid (procs s)) (ready_queue s) ∧
  Forall (valid (procs s)) (completed_processes s) ∧
  (a = bankers →
   ∃ n, length (available_resources (resource_manager s)) = n ∧
        Forall (wf_process n) (procs s)).

(** [ps'] has the processes of [ps], with other scheduling fields. *)
Definition same_shape (ps ps' : list Process) : Prop :=
  length ps' = length ps ∧
  ∀ n, Forall (wf_process n) ps → Forall (wf_process n) ps'.

End Sched.

(** ** [ResourceManager.resolve_deadlock_by_resource_preemption] *)






(** ** [deadlock_resolution.py] *)

Module Resolver.

(** Modelled from the spec: the [SystemState] class that
    [DeadlockResolver] works on is not part of the sources; only its use in
    [deadlock_resolution.py] is.  It has the available vector, the process
    list, and the matrices [allocation_matrix], [max_matrix] and
    [request_matrix], one row per process, indexed by [process.id] and by
    the position of the process alike.  Rows are Python lists of integers;
    ids are non-negative.  The fields [state] and [priority] of a process
    play no part in [banker_resolution] and are left out. *)
Record SProcess := mkSProcess { id : nat }.

Record SystemState := mkState {
  available_resources : list Z;
  processes : list SProcess;
  allocation_matrix : list (list Z);
  max_matrix : list (list Z);
  request_matrix : list (list Z)
}.

(** One entry of [resolution_steps]. *)
Record Step := mkStep {
  process : nat;
  resources_needed : list Z;
  resources_released : list Z
}.

(** The dictionary [banker_resolution] returns. *)
Inductive Resolution :=
  | Success (safe_sequence : list nat) (steps : list Step)
  | Failure.

(** [for i in range(len(total)): total[i] += row[i]], from index [i] on *)
Fixpoint add_row (i : nat) (n : nat) (row : list Z) (total : list Z)
    : option (list Z) :=
  match n with
  | O => Some total
  | S n' =>
      t ← total !! i; r ← row !! i;
      add_row (S i) n' row (<[i := t + r]> total)
  end.

(** The first loop: add every process's allocation row to the total. *)
Fixpoint total_resources (ps : list SProcess) (alloc : list (list Z))
    (total : list Z) : option (list Z) :=
  match ps with
  | [] => Some total
  | p :: ps' =>
      row ← alloc !! id p;
      total' ← add_row 0 (length total) row total;
      total_resources ps' alloc total'
  end.

(** [for i in range(n): row[i] = 0], from index [i] on *)
Fixpoint zero_row (i : nat) (n : nat) (row : list Z) : option (list Z) :=
  match n with
  | O => Some row
  | S n' => _ ← row !! i; zero_row (S i) n' (<[i := 0]> row)
  end.

(** The second loop: zero every process's allocation row. *)
Fixpoint reset_allocation (n : nat) (ps : list SProcess) (alloc : list (list Z))
    : option (list (list Z)) :=
  match ps with
  | [] => Some alloc
  | p :: ps' =>
      row ← alloc !! id p;
      row' ← zero_row 0 n row;
      reset_allocation n ps' (<[id p := row']> alloc)
  end.

(** [[max_matrix[i][j] - allocation_matrix[i][j] for j in range(len(work))]] *)
Definition need_row (maxr allocr : list Z) (n : nat) : option (list Z) :=
  mapM (λ j, m ← maxr !! j; a ← allocr !! j; Some (m - a)) (seq 0 n).

(** The [for j in range(len(need))] test, which stops at the first
    component that does not fit. *)
Fixpoint can_complete (j : nat) (need : list Z) (work : list Z) : option bool :=
  match need with
  | [] => Some true
  | d :: need' =>
      w ← work !! j;
      if w <? d then Some false else can_complete (S j) need' work
  end.

(** The state of the search for a safe sequence. *)
Record Search := mkSearch {
  work : list Z;
  finish : list bool;
  safe_sequence : list nat;
  resolution_steps : list Step;
  found : bool
}.

(** The body of [for i, process in enumerate(self.system_state.processes)] *)
Definition search_body (st : SystemState) (i : nat) (p : SProcess) (s : Search)
    : option Search :=
  f ← finish s !! i;
  if f : bool then Some s
  else
    maxr ← max_matrix st !! i;
    allocr ← allocation_matrix st !! i;
    need ← need_row maxr allocr (length (work s));
    ok ← can_complete 0 need (work s);
    if ok : bool then
      work' ← add_row 0 (length (work s)) allocr (work s);
      released ← mapM (λ j, allocr !! j) (seq 0 (length (work s)));
      Some (mkSearch work' (<[i := true]> (finish s))
              (safe_sequence s ++ [id p])
              (resolution_steps s ++ [mkStep (id p) need released]) true)
    else Some s.

Fixpoint search_from (st : SystemState) (i : nat) (ps : list SProcess)
    (s : Search) : option Search :=
  match ps with
  | [] => Some s
  | p :: ps' => s' ← search_body st i p s; search_from st (S i) ps' s'
  end.

(** The [while True] loop; [fuel] bounds the number of passes. *)
Fixpoint search_loop (st : SystemState) (fuel : nat) (s : Search)
    : option Search :=
  match fuel with
  | O => None
  | S fuel' =>
      s' ← search_from st 0 (processes st)
             (mkSearch (work s) (finish s) (safe_sequence s)
                (resolution_steps s) false);
      if found s' then search_loop st fuel' s' else Some s'
  end.

(** [DeadlockResolver.banker_resolution]; the argument [deadlock_processes]
    is not used by the code.  Every pass of the search but the last
    finishes a process, so one pass more than there are processes is
    enough. *)
Definition banker_resolution (st : SystemState)
    : option (Resolution * SystemState) :=
  total ← total_resources (processes st) (allocation_matrix st)
            (available_resources st);
  alloc ← reset_allocation (length total) (processes st) (allocation_matrix st);
  let st' := mkState total (processes st) alloc (max_matrix st)
               (request_matrix st) in
  s ← search_loop st' (S (length (processes st')))
        (mkSearch total (replicate (length (processes st')) false) [] [] false);
  Some (if forallb (λ b : bool, b) (finish s)
        then Success (safe_sequence s) (resolution_steps s)
        else Failure,
        st').

(** A system state as [banker_resolution] expects it: [n] resource types,
    the process at position [i] has id [i], and both matrices have a row
    of length [n] for it. *)
Definition wf_state (n : nat) (st : SystemState) : Prop :=
  length (available_resources st) = n ∧
  (∀ i p, processes st !! i = Some p → id p = i) ∧
  (∀ i, (i < length (processes st))%nat →
        ∃ row, allocation_matrix st !! i = Some row ∧ length row = n) ∧
  (∀ i, (i < length (processes st))%nat →
        ∃ row, max_matrix st !! i = Some row ∧ length row = n).

(** The total of every resource: what is available plus what the
    processes hold. *)
Definition system_total (st : SystemState) : list Z :=
  foldl (λ total p,
           zip_with Z.add total (default [] (allocation_matrix st !! id p)))
    (available_resources st) (processes st).

(** The maximum demand of the process at position [i] is within [total]
    in every component. *)
Definition max_within (st : SystemState) (total : list Z) (i : nat) : Prop :=
  ∃ row, max_matrix st !! i = Some row ∧ Forall2 Z.le row total.

(** Scenario 1 of [main.py]: three processes and three resources, each
    process holding one resource and asking for the next. *)
Definition circular_wait : SystemState :=
  mkState [0; 0; 0] [mkSProcess 0; mkSProcess 1; mkSProcess 2]
    [[1; 0; 0]; [0; 1; 0]; [0; 0; 1]]
    [[1; 1; 0]; [0; 1; 1]; [1; 0; 1]]
    [[0; 1; 0]; [0; 0; 1]; [1; 0; 0]].

End Resolver.

(** ** A cycle finder that meets the contract

    A plain search for a closed walk, used to run [detect_deadlock] on
    concrete ledgers: from every node in turn, follow edges depth first for
    at most as many steps as the graph has edges, and stop at the first
    walk that comes back to its start. *)

Definition successors (g : DiGraph) (u : node) : list node :=
  g ≫= (λ uvs, if decide (uvs.1 = u) then uvs.2 else []).

Fixpoint first_some {A B} (f : A → option B) (l : list A) : option B :=
  match l with
  | [] => None
  | x :: l' => match f x with Some y => Some y | None => first_some f l' end
  end.

Fixpoint closed_walk (g : DiGraph) (fuel : nat) (start cur : node)
    : option (list edge) :=
  match fuel with
  | O => None
  | S fuel' =>
      first_some
        (λ v, if decide (v = start) then Some [(cur, v)]
              else cons (cur, v) <$> closed_walk g fuel' start v)
        (successors g cur)
  end.

Definition search_cycle (g : DiGraph) : option (list edge) :=
  first_some (λ s, closed_walk g (length (edges g)) s s) (nodes g).

(** ** Properties the theorems speak about *)

(** Some component of [v] is larger than the same component of [a]. *)
Definition exceeds (v a : list Z) : Prop :=
  ∃ i x y, v !! i = Some x ∧ a !! i = Some y ∧ y < x.

(** [a] is at most [b] in every component. *)
Definition vle (a b : list Z) : Prop := Forall2 Z.le a b.

(** [a + b] and [a - b] on int64 vectors of one length. *)
Definition vadd (a b : list Z) : list Z := zip_with np.add64 a b.
Definition vsub (a b : list Z) : list Z := zip_with np.sub64 a b.

(** Every entry of a process, and of the ledger, is an int64 value, as the
    entries of numpy's arrays are. *)
Definition int64_process (p : Process) : Prop :=
  Forall np.int64 (max_resources p) ∧
  Forall np.int64 (allocated_resources p) ∧
  Forall np.int64 (needed_resources p).

Definition int64_ledger (rm : ResourceManager) : Prop :=
  Forall np.int64 (available_resources rm) ∧
  Forall int64_process (processes rm).

(** The operation [f] of the integers stays inside the int64 range on every
    pair of entries of [a] and [b]: the arrays' arithmetic does not wrap
    around there. *)
Definition no_overflow (f : Z → Z → Z) (a b : list Z) : Prop :=
  Forall2 (λ x y, np.int64 (f x y)) a b.

(** No entry is negative; in a ledger, no entry of the available vector or
    of an allocation. *)
Definition nonneg (a : list Z) : Prop := Forall (λ x, 0 ≤ x) a.

Definition nonneg_ledger (rm : ResourceManager) : Prop :=
  nonneg (available_resources rm) ∧
  Forall (λ p, nonneg (allocated_resources p)) (processes rm).

(** The ledger with the request [v] of process [p], at position [k],
    applied: [available -= v], [allocated += v], [needed -= v], in the
    arithmetic of the arrays. *)
Definition granted (k : nat) (p : Process) (v : list Z) (rm : ResourceManager)
    : ResourceManager :=
  set_process k
    (set_needed (vsub (needed_resources p) v)
       (set_allocated (vadd (allocated_resources p) v) p))
    (set_available (vsub (available_resources rm) v) rm).

(** The same with the integers' own addition and subtraction. *)
Definition granted_exact (k : nat) (p : Process) (v : list Z)
    (rm : ResourceManager) : ResourceManager :=
  set_process k
    (set_needed (zip_with Z.sub (needed_resources p) v)
       (set_allocated (zip_with Z.add (allocated_resources p) v) p))
    (set_available (zip_with Z.sub (available_resources rm) v) rm).

(** The ledger with the release [v] of process [p], at position [k],
    applied: [available += v], [allocated -= v], [needed += v], in the
    arithmetic of the arrays. *)
Definition released (k : nat) (p : Process) (v : list Z) (rm : ResourceManager)
    : ResourceManager :=
  set_process k
    (set_needed (vadd (needed_resources p) v)
       (set_allocated (vsub (allocated_resources p) v) p))
    (set_available (vadd (available_resources rm) v) rm).

(** [available[i]] plus the sum over all processes of [allocated[i]]. *)
Definition held_at (i : nat) (ps : list Process) : Z :=
  foldr (λ p acc, default 0 (allocated_resources p !! i) + acc) 0 ps.

Definition total_at (i : nat) (rm : ResourceManager) : Z :=
  default 0 (available_resources rm !! i) + held_at i (processes rm).

(** A call of the ledger, and a sequence of calls with the result and the
    ledger after each of them. *)
Inductive call := Request (q : Z) (v : list Z) | Release (q : Z) (v : list Z).

Definition call_vector (c : call) : list Z :=
  match c with Request _ v | Release _ v => v end.

Definition do_call (c : call) (rm : ResourceManager)
    : option (bool * ResourceManager) :=
  match c with
  | Request q v => request_resources q v rm
  | Release q v => release_resources q v rm
  end.

Fixpoint do_calls (cs : list call) (rm : ResourceManager)
    : option (list (bool * ResourceManager)) :=
  match cs with
  | [] => Some []
  | c :: cs' =>
      r ← do_call c rm;
      rest ← do_calls cs' r.2;
      Some (r :: rest)
  end.

(** One step of the Banker's scan as the specification words it: some
    unfinished process whose need fits into [work] is marked finished and
    its allocation is added to [work].  [add] is the addition of two
    entries: [Z.add] for the scan over the integers, [np.add64] for the
    scan in the arithmetic of the arrays. *)
Inductive bankers_step (add : Z → Z → Z) (ps : list Process)
    : list Z * list bool → list Z * list bool → Prop :=
  | bankers_finish i p work finish :
      ps !! i = Some p →
      finish !! i = Some false →
      vle (needed_resources p) work →
      bankers_step add ps (work, finish)
        (zip_with add work (allocated_resources p), <[i := true]> finish).

(** What the processes not yet finished hold of resource [i]. *)
Definition pending_at (i : nat) (ps : list Process) (finish : list bool) : Z :=
  foldr (λ pf acc,
           (if pf.2 : bool then 0
            else default 0 (allocated_resources pf.1 !! i)) + acc)
    0 (zip ps finish).

(** A safe sequence from [work]: the processes at the positions [order],
    run one after the other, each find their need within [work] and then
    give back what they hold. *)
Fixpoint runs_in_order (ps : list Process) (work : list Z) (order : list nat)
    : Prop :=
  match order with
  | [] => True
  | k :: order' =>
      ∃ p, ps !! k = Some p ∧ vle (needed_resources p) work ∧
           runs_in_order ps (zip_with Z.add work (allocated_resources p)) order'
  end.

(** A safe sequence of the ledger: an order of all its processes that runs
    from the available resources. *)
Definition safe_sequence (rm : ResourceManager) (order : list nat) : Prop :=
  order ≡ₚ seq 0 (length (processes rm)) ∧
  runs_in_order (processes rm) (available_resources rm) order.

(** No unfinished process fits into [work]. *)
Definition bankers_stuck (ps : list Process) (st : list Z * list bool) : Prop :=
  ∀ i p, ps !! i = Some p → st.2 !! i = Some false →
         ¬ vle (needed_resources p) st.1.

(** The edges of the resource-allocation graph. *)
Definition holds (rm : ResourceManager) (p : Process) (i : nat) : Prop :=
  p ∈ processes rm ∧ ∃ a, allocated_resources p !! i = Some a ∧ 0 < a.

Definition waits (rm : ResourceManager) (p : Process) (i : nat) : Prop :=
  p ∈ processes rm ∧
  ∃ d a, needed_resources p !! i = Some d ∧ 0 < d ∧
         available_resources rm !! i = Some a ∧ a < d.

Definition allocation_edge (rm : ResourceManager) (e : edge) : Prop :=
  ∃ p i, holds rm p i ∧ e = (R i, P (pid p)).

(** The request edges as the specification words them. *)
Definition request_edge_spec (rm : ResourceManager) (e : edge) : Prop :=
  ∃ p i, waits rm p i ∧ e = (P (pid p), R i).

(** The request edges of the code: only towards a resource that some
    process holds. *)
Definition request_edge (rm : ResourceManager) (e : edge) : Prop :=
  ∃ p i, waits rm p i ∧ (∃ p', holds rm p' i) ∧ e = (P (pid p), R i).

(** The ledger after the processes at positions [ks] were terminated, one
    after the other. *)
Fixpoint terminate_all (ks : list nat) (rm : ResourceManager)
    : option ResourceManager :=
  match ks with
  | [] => Some rm
  | k :: ks' => rm1 ← terminate k rm; terminate_all ks' rm1
  end.

(** The process [p] after a preemption: everything it held is added to its
    need. *)
Definition preempted (n : nat) (p : Process) : Process :=
  set_allocated (replicate n 0)
    (set_needed (vadd (needed_resources p) (allocated_resources p)) p).


(** The total of what the process at position [k] holds. *)
Definition allocation_sum (rm : ResourceManager) (k : nat) : Z :=
  default 0 (np.sum ∘ allocated_resources <$> processes rm !! k).

(** Two managers with the same ledger: they differ at most in the cached
    deadlock set. *)
Definition same_ledger (a b : ResourceManager) : Prop :=
  available_resources a = available_resources b ∧ processes a = processes b.

(** [create_deadlock_scenario(2)]: two processes, each holding what the
    other needs. *)
Definition scenario2 : ResourceManager :=
  mkRM [0; 0]
    [ mkProcess 1 [1; 1] [1; 0] [0; 1] false 0 0 0 0 None None;
      mkProcess 2 [1; 1] [0; 1] [1; 0] false 0 0 0 0 None None ]
    [].

(** [create_deadlock_scenario(6)]: four processes waiting for a resource
    that nobody holds. *)
Definition scenario6 : ResourceManager :=
  mkRM [0; 0]
    [ mkProcess 1 [0; 1] [0; 0] [0; 1] false 0 0 0 0 None None;
      mkProcess 2 [0; 1] [0; 0] [0; 1] false 0 0 0 0 None None;
      mkProcess 3 [1; 0] [1; 0] [0; 1] false 0 0 0 0 None None;
      mkProcess 4 [1; 0] [1; 0] [0; 1] false 0 0 0 0 None None ]
    [].

(** Two separate circular waits: processes 1 and 2 over resources 0 and 1,
    processes 3 and 4 over resources 2 and 3. *)
Definition two_cycles : ResourceManager :=
  mkRM [0; 0; 0; 0]
    [ mkProcess 1 [1; 1; 0; 0] [1; 0; 0; 0] [0; 1; 0; 0] false 0 0 0 0 None None;
      mkProcess 2 [1; 1; 0; 0] [0; 1; 0; 0] [1; 0; 0; 0] false 0 0 0 0 None None;
      mkProcess 3 [0; 0; 1; 1] [0; 0; 1; 0] [0; 0; 0; 1] false 0 0 0 0 None None;
      mkProcess 4 [0; 0; 1; 1] [0; 0; 0; 1] [0; 0; 1; 0] false 0 0 0 0 None None ]
    [].

(** A ledger whose total of resource 0 does not fit into an int64: the
    largest int64 value is available and process 1 holds one more unit. *)
Definition overflow_ledger : ResourceManager :=
  mkRM [9223372036854775807]
    [ mkProcess 1 [1] [1] [0] false 0 0 0 0 None None ]
    [].

(** The number of processes not yet marked finished. *)
Definition unfinished (finish : list bool) : nat :=
  length (filter (λ b, b = false) finish).

(** * Proofs *)

(** Facts about a concrete ledger: the entries are in range, not
    negative. *)
Ltac ledger_facts :=
  repeat first [ split | apply Forall_nil_2 | apply Forall_cons_2
               | apply Forall2_nil_2 | apply Forall2_cons_2 ];
  try done; unfold np.int64 in *; simpl; lia.

(** ** numpy operations on vectors of equal length *)

Lemma broadcast_same {A} (f : Z → Z → A) a b :
  length a = length b → np.broadcast f a b = Some (zip_with f a b).
Proof. intros H. unfold np.broadcast. by rewrite decide_True. Qed.

Lemma inplace_same f a b :
  length b = length a → np.inplace f a b = Some (zip_with f a b).
Proof. intros H. unfold np.inplace. by rewrite decide_True. Qed.

Lemma inplace_length f a b c : np.inplace f a b = Some c → length c = length a.
Proof.
  unfold np.inplace. case_decide.
  - intros [= <-]. rewrite length_zip_with. lia.
  - destruct b as [|y [|]]; intros [= <-]. by rewrite length_fmap.
Qed.

(** *** int64 arithmetic *)

Lemma wrap_int64 z : np.int64 (np.wrap z).
Proof.
  unfold np.int64, np.wrap.
  pose proof (Z.mod_pos_bound (z + 2 ^ 63) (2 ^ 64)). lia.
Qed.

Lemma wrap_id z : np.int64 z → np.wrap z = z.
Proof. unfold np.int64, np.wrap. intros H. rewrite Z.mod_small; lia. Qed.

(** Wrapping around changes a value by a multiple of [2^64]. *)
Lemma wrap_eq z : ∃ k, np.wrap z = z + 2 ^ 64 * k.
Proof.
  exists (- ((z + 2 ^ 63) / 2 ^ 64)). unfold np.wrap.
  rewrite Z.mod_eq by lia. lia.
Qed.

Lemma wrap_shift z k : np.wrap (z + 2 ^ 64 * k) = np.wrap z.
Proof.
  unfold np.wrap. f_equal.
  replace (z + 2 ^ 64 * k + 2 ^ 63) with (z + 2 ^ 63 + k * 2 ^ 64) by lia.
  apply Z_mod_plus_full.
Qed.

Lemma wrap_add_l x y : np.wrap (np.wrap x + y) = np.wrap (x + y).
Proof.
  destruct (wrap_eq x) as [k ->].
  replace (x + 2 ^ 64 * k + y) with (x + y + 2 ^ 64 * k) by lia.
  apply wrap_shift.
Qed.

(** On int64 values, [+=] and [-=] undo each other, wrapping or not. *)
Lemma sub64_add64 x y : np.int64 x → np.sub64 (np.add64 x y) y = x.
Proof.
  intros H. unfold np.sub64, np.add64.
  replace (np.wrap (x + y) - y) with (np.wrap (x + y) + - y) by lia.
  rewrite wrap_add_l. replace (x + y + - y) with x by lia. by apply wrap_id.
Qed.

Lemma add64_sub64 x y : np.int64 x → np.add64 (np.sub64 x y) y = x.
Proof.
  intros H. unfold np.sub64, np.add64.
  rewrite wrap_add_l. replace (x - y + y) with x by lia. by apply wrap_id.
Qed.

(** Undoing an in-place operation with the inverse one. *)
Lemma inplace_undo f g a b c :
  (∀ x y, np.int64 x → g (f x y) y = x) →
  Forall np.int64 a →
  np.inplace f a b = Some c → np.inplace g c b = Some a.
Proof.
  intros Hfg Ha. unfold np.inplace. case_decide as Hl.
  - intros [= <-]. rewrite decide_True by (rewrite length_zip_with; lia).
    f_equal. revert b Hl.
    induction Ha as [|x a Hx Ha IH]; intros [|y b] ?; simplify_eq/=; [done|].
    rewrite Hfg by done. f_equal. apply IH. lia.
  - destruct b as [|y [|]]; intros [= <-].
    rewrite length_fmap. rewrite decide_False by done.
    f_equal. rewrite <- list_fmap_compose. rewrite <- (list_fmap_id a) at 2.
    apply Forall_fmap_ext_1. eapply Forall_impl; [exact Ha|].
    intros x Hx; simpl. by rewrite Hfg.
Qed.

Lemma vadd_int64 a b : Forall np.int64 (vadd a b).
Proof.
  unfold vadd. revert b.
  induction a as [|x a IH]; intros [|y b]; simpl; constructor;
    [apply wrap_int64 | apply IH].
Qed.

Lemma vsub_int64 a b : Forall np.int64 (vsub a b).
Proof.
  unfold vsub. revert b.
  induction a as [|x a IH]; intros [|y b]; simpl; constructor;
    [apply wrap_int64 | apply IH].
Qed.

(** Where nothing overflows, the arithmetic of the arrays is that of the
    integers. *)
Lemma vadd_exact a b : no_overflow Z.add a b → vadd a b = zip_with Z.add a b.
Proof.
  intros H. unfold vadd.
  induction H as [|x y a b Hxy _ IH]; simpl; [done|].
  f_equal; [by apply wrap_id | done].
Qed.

Lemma vsub_exact a b : no_overflow Z.sub a b → vsub a b = zip_with Z.sub a b.
Proof.
  intros H. unfold vsub.
  induction H as [|x y a b Hxy _ IH]; simpl; [done|].
  f_equal; [by apply wrap_id | done].
Qed.

Lemma existsb_zip_gt a b :
  existsb id (zip_with (λ x y, y <? x) a b) = true ↔ exceeds a b.
Proof.
  revert b. induction a as [|x a IH]; intros [|y b]; simpl.
  - split; [done|]. intros (i & ? & ? & ? & ? & ?). by destruct i.
  - split; [done|]. intros (i & ? & ? & ? & ? & ?). by destruct i.
  - split; [done|]. intros (i & ? & ? & ? & ? & ?). by destruct i.
  - rewrite orb_true_iff, IH. unfold id. split.
    + intros [H|(i & x' & y' & ? & ? & ?)].
      * exists 0%nat, x, y. split_and!; [done..|]. by apply Z.ltb_lt.
      * exists (S i), x', y'. done.
    + intros ([|i] & x' & y' & ? & ? & ?); simplify_eq/=.
      * left. by apply Z.ltb_lt.
      * right. by exists i, x', y'.
Qed.

Lemma any_gt_same a b :
  length a = length b →
  ∃ r, np.any_gt a b = Some r ∧ (r = true ↔ exceeds a b).
Proof.
  intros H. unfold np.any_gt. rewrite broadcast_same by done. simpl.
  eexists. split; [done|]. apply existsb_zip_gt.
Qed.

Lemma forallb_zip_le a b :
  length a = length b →
  forallb id (zip_with Z.leb a b) = true ↔ vle a b.
Proof.
  revert b. induction a as [|x a IH]; intros [|y b] ?; simplify_eq/=.
  - split; [constructor|done].
  - rewrite andb_true_iff, IH by done. unfold id, vle. rewrite Forall2_cons.
    by rewrite Z.leb_le.
Qed.

Lemma all_le_same a b :
  length a = length b →
  ∃ r, np.all_le a b = Some r ∧ (r = true ↔ vle a b).
Proof.
  intros H. unfold np.all_le. rewrite broadcast_same by done. simpl.
  eexists. split; [done|]. by apply forallb_zip_le.
Qed.

(** ** The safety check *)

Lemma unfinished_insert finish i :
  finish !! i = Some false →
  (unfinished (<[i := true]> finish) < unfinished finish)%nat.
Proof.
  unfold unfinished. revert i.
  induction finish as [|b finish IH]; intros [|i] H; simplify_eq/=;
    rewrite ?filter_cons; repeat case_decide; simplify_eq/=; try lia.
  all: specialize (IH _ H); lia.
Qed.

(** What one visit of the scan does. *)
Lemma scan_body_spec n i p work finish found :
  length work = n →
  length (allocated_resources p) = n →
  length (needed_resources p) = n →
  (i < length finish)%nat →
  (scan_body i p (work, finish, found) = Some (work, finish, found) ∧
   (finish !! i = Some false → ¬ vle (needed_resources p) work)) ∨
  (scan_body i p (work, finish, found) =
     Some (vadd work (allocated_resources p), <[i := true]> finish, true) ∧
   finish !! i = Some false ∧ vle (needed_resources p) work).
Proof.
  intros Hw Ha Hn Hi. unfold scan_body.
  destruct (lookup_lt_is_Some_2 finish i Hi) as [b Hb]. rewrite Hb.
  destruct b; [left; split; [done|congruence]|].
  destruct (all_le_same (needed_resources p) work) as (r & -> & Hr); [congruence|].
  simpl. destruct r.
  - right. unfold np.iadd. rewrite inplace_same by congruence. simpl.
    split_and!; [done..|]. by apply Hr.
  - left. split; [done|]. intros _ Hle. apply Hr in Hle. done.
Qed.

Lemma scan_from_cons i p ps st :
  scan_from i (p :: ps) st = scan_body i p st ≫= scan_from (S i) ps.
Proof. done. Qed.

(** What one pass of the scan over the processes from position [i] on does:
    it takes steps of the Banker's scan, never un-finishes a process, and
    reports [found] exactly when it finished one. *)
Lemma scan_from_spec n all ps : ∀ i work finish found,
  (∀ j p, ps !! j = Some p → all !! (i + j)%nat = Some p) →
  Forall (wf_process n) ps →
  length work = n →
  (i + length ps ≤ length finish)%nat →
  ∃ work' finish' found',
    scan_from i ps (work, finish, found) = Some (work', finish', found') ∧
    length work' = n ∧ length finish' = length finish ∧
    rtc (bankers_step np.add64 all) (work, finish) (work', finish') ∧
    (unfinished finish' ≤ unfinished finish)%nat ∧
    (found' = true →
       found = true ∨ (unfinished finish' < unfinished finish)%nat) ∧
    (found' = false →
       work' = work ∧ finish' = finish ∧ found = false ∧
       ∀ j p, ps !! j = Some p → finish !! (i + j)%nat = Some false →
              ¬ vle (needed_resources p) work).
Proof.
  induction ps as [|p ps IH]; intros i work finish found Hall Hwf Hw Hlen.
  - exists work, finish, found. simpl. split_and!; try done.
    by left.
  - apply Forall_cons in Hwf as [(Hm & Ha & Hn) Hwf]. simpl in Hlen.
    assert (Hp : all !! i = Some p).
    { specialize (Hall 0%nat p eq_refl). by rewrite Nat.add_0_r in Hall. }
    assert (Hall' : ∀ j p', ps !! j = Some p' → all !! (S i + j)%nat = Some p').
    { intros j p' Hj. specialize (Hall (S j) p' Hj).
      by replace (S i + j)%nat with (i + S j)%nat by lia. }
    rewrite scan_from_cons.
    destruct (scan_body_spec n i p work finish found Hw Ha Hn ltac:(lia))
      as [[-> Hno]|(-> & Hf & Hle)]; simpl.
    + destruct (IH (S i) work finish found Hall' Hwf Hw ltac:(lia))
        as (work' & finish' & found' & -> & ? & ? & ? & ? & ? & Hstuck).
      exists work', finish', found'. split_and!; try done.
      intros Hf. destruct (Hstuck Hf) as (-> & -> & -> & Hrest).
      split_and!; try done. intros [|j] p' Hj Hfj; simplify_eq/=.
      * rewrite Nat.add_0_r in Hfj. by apply Hno.
      * apply (Hrest j); [done|]. rewrite <- Hfj. f_equal. lia.
    + pose proof (unfinished_insert finish i Hf) as Hlt.
      destruct (IH (S i) (vadd work (allocated_resources p))
                  (<[i := true]> finish) true Hall' Hwf)
        as (work' & finish' & found' & -> & ? & Hl' & Hrtc & ? & ? & Hstuck).
      { unfold vadd. rewrite length_zip_with. lia. }
      { rewrite length_insert. lia. }
      rewrite length_insert in Hl'.
      exists work', finish', found'. split_and!; try done.
      * eapply rtc_l; [|exact Hrtc]. by constructor.
      * lia.
      * intros _. right. lia.
      * intros Hf'. by destruct (Hstuck Hf') as (_ & _ & ? & _).
Qed.

(** The [while] loop ends before its fuel does, in a state the scan
    reaches and cannot leave. *)
Lemma safe_loop_spec n ps : ∀ fuel work finish,
  Forall (wf_process n) ps →
  length work = n →
  length finish = length ps →
  (unfinished finish < fuel)%nat →
  ∃ work' finish',
    safe_loop fuel ps work finish = Some (work', finish') ∧
    length finish' = length ps ∧
    rtc (bankers_step np.add64 ps) (work, finish) (work', finish') ∧
    bankers_stuck ps (work', finish').
Proof.
  induction fuel as [|fuel IH]; intros work finish Hwf Hw Hlen Hfuel; [lia|].
  destruct (scan_from_spec n ps ps 0 work finish false)
    as (work1 & finish1 & found1 & Hscan & Hw1 & Hl1 & Hrtc & Hle & Hfound & Hstuck);
    [done|done|done|lia|].
  destruct found1.
  - destruct (Hfound eq_refl) as [?|Hlt]; [done|].
    destruct (IH work1 finish1) as (work' & finish' & Hloop & ? & Hrtc' & ?);
      [done|done|congruence|lia|].
    exists work', finish'. cbn [safe_loop]. rewrite Hscan. simpl.
    split_and!; try done. by etrans.
  - destruct (Hstuck eq_refl) as (-> & -> & _ & Hno).
    exists work, finish. cbn [safe_loop]. rewrite Hscan. simpl.
    split_and!; done.
Qed.

Lemma unfinished_replicate n : unfinished (replicate n false) = n.
Proof.
  unfold unfinished. induction n as [|n IH]; [done|]. cbn [replicate].
  rewrite filter_cons_True by done. simpl. by rewrite IH.
Qed.

(** [is_safe] returns on every well-formed ledger. *)
Lemma safe_run_total n rm :
  wf n rm →
  ∃ work finish,
    safe_run rm = Some (work, finish) ∧
    length finish = length (processes rm) ∧
    rtc (bankers_step np.add64 (processes rm))
      (available_resources rm, replicate (length (processes rm)) false)
      (work, finish) ∧
    bankers_stuck (processes rm) (work, finish).
Proof.
  intros [Ha Hps]. unfold safe_run.
  apply (safe_loop_spec n); [done|done|by rewrite length_replicate|].
  rewrite unfinished_replicate. lia.
Qed.

Lemma is_safe_total n rm : wf n rm → is_Some (is_safe rm).
Proof.
  intros Hwf. destruct (safe_run_total n rm Hwf) as (work & finish & H & _).
  unfold is_safe. rewrite H. by eexists.
Qed.

(** ** The ledger operations *)

Lemma find_process_Some q rm k p :
  find_process q rm = Some (k, p) → processes rm !! k = Some p ∧ pid p = q.
Proof. unfold find_process. rewrite list_find_Some. by intros (? & ? & _). Qed.

Lemma set_fields_same p :
  set_needed (needed_resources p) (set_allocated (allocated_resources p) p) = p.
Proof. by destruct p. Qed.

Lemma set_process_same k p rm :
  processes rm !! k = Some p →
  set_process k p (set_available (available_resources rm) rm) = rm.
Proof.
  intros H. destruct rm as [a ps d]. unfold set_process, set_available. simpl in *.
  by rewrite list_insert_id.
Qed.

Lemma wf_lookup n rm k p :
  wf n rm → processes rm !! k = Some p → wf_process n p.
Proof. intros [_ H] Hk. by eapply Forall_lookup_1. Qed.

Lemma wf_set_process n k p rm a :
  wf n rm → wf_process n p → length a = n →
  wf n (set_process k p (set_available a rm)).
Proof.
  intros [_ Hps] Hp Ha. split; [done|]. simpl. by apply Forall_insert.
Qed.

Lemma wf_granted n k p v rm :
  wf n rm → processes rm !! k = Some p → length v = n →
  wf n (granted k p v rm).
Proof.
  intros Hwf Hk Hv. pose proof Hwf as [Ha _].
  destruct (wf_lookup n rm k p Hwf Hk) as (? & ? & ?).
  apply wf_set_process; [done| |].
  - split_and!; simpl; unfold vadd, vsub; rewrite ?length_zip_with; lia.
  - unfold vsub. rewrite length_zip_with. lia.
Qed.

Lemma wf_released n k p v rm :
  wf n rm → processes rm !! k = Some p → length v = n →
  wf n (released k p v rm).
Proof.
  intros Hwf Hk Hv. pose proof Hwf as [Ha _].
  destruct (wf_lookup n rm k p Hwf Hk) as (? & ? & ?).
  apply wf_set_process; [done| |].
  - split_and!; simpl; unfold vadd, vsub; rewrite ?length_zip_with; lia.
  - unfold vadd. rewrite length_zip_with. lia.
Qed.

Lemma int64_lookup rm k p :
  int64_ledger rm → processes rm !! k = Some p → int64_process p.
Proof. intros [_ H] Hk. by eapply Forall_lookup_1. Qed.

Lemma int64_set_process k p rm a :
  int64_ledger rm → int64_process p → Forall np.int64 a →
  int64_ledger (set_process k p (set_available a rm)).
Proof.
  intros [_ Hps] Hp Ha. split; [done|]. simpl. by apply Forall_insert.
Qed.

(** The arrays' arithmetic keeps the entries int64 values. *)
Lemma int64_granted k p v rm :
  int64_ledger rm → processes rm !! k = Some p →
  int64_ledger (granted k p v rm).
Proof.
  intros H64 Hk. destruct (int64_lookup rm k p H64 Hk) as (? & ? & ?).
  apply int64_set_process; [done| |apply vsub_int64].
  split_and!; simpl; [done|apply vadd_int64|apply vsub_int64].
Qed.

Lemma int64_released k p v rm :
  int64_ledger rm → processes rm !! k = Some p →
  int64_ledger (released k p v rm).
Proof.
  intros H64 Hk. destruct (int64_lookup rm k p H64 Hk) as (? & ? & ?).
  apply int64_set_process; [done| |apply vadd_int64].
  split_and!; simpl; [done|apply vsub_int64|apply vadd_int64].
Qed.

(** Rolling the tentative allocation back gives the ledger the call
    started from. *)
Lemma rollback k p rm avail alloc need avail' alloc' need' request :
  processes rm !! k = Some p →
  Forall np.int64 (available_resources rm) →
  int64_process p →
  np.isub (available_resources rm) request = Some avail →
  np.iadd (allocated_resources p) request = Some alloc →
  np.isub (needed_resources p) request = Some need →
  np.iadd avail request = Some avail' →
  np.isub alloc request = Some alloc' →
  np.iadd need request = Some need' →
  set_process k (set_needed need' (set_allocated alloc' p))
    (set_available avail'
       (set_process k (set_needed need (set_allocated alloc p))
          (set_available avail rm))) = rm.
Proof.
  intros Hk Ha (_ & Hal & Hnd) H1 H2 H3 H1' H2' H3'.
  apply (inplace_undo np.sub64 np.add64) in H1;
    [|intros; by apply add64_sub64|done].
  apply (inplace_undo np.add64 np.sub64) in H2;
    [|intros; by apply sub64_add64|done].
  apply (inplace_undo np.sub64 np.add64) in H3;
    [|intros; by apply add64_sub64|done].
  unfold np.iadd, np.isub in *. simplify_eq.
  destruct rm as [a ps d]. unfold set_process, set_available. simpl in *.
  rewrite list_insert_insert_eq. f_equal.
  rewrite <- (list_insert_id ps k p) at 2 by done. f_equal. by destruct p.
Qed.

Lemma isub_same a b : length b = length a → np.isub a b = Some (vsub a b).
Proof. apply inplace_same. Qed.

Lemma iadd_same a b : length b = length a → np.iadd a b = Some (vadd a b).
Proof. apply inplace_same. Qed.



(** Where none of the three updates overflows, the ledger with the request
    applied is the one the integers' arithmetic gives. *)
Lemma granted_no_overflow k p v rm :
  no_overflow Z.sub (available_resources rm) v →
  no_overflow Z.add (allocated_resources p) v →
  no_overflow Z.sub (needed_resources p) v →
  granted k p v rm = granted_exact k p v rm.
Proof.
  intros H1 H2 H3. unfold granted, granted_exact.
  by rewrite !vsub_exact, vadd_exact.
Qed.

(** What [request_resources] does on a well-formed ledger. *)
Lemma request_resources_cases n rm q v k p :
  wf n rm →
  int64_ledger rm →
  length v = n →
  find_process q rm = Some (k, p) →
  (exceeds v (needed_resources p) ∨ exceeds v (available_resources rm) →
     request_resources q v rm = Some (false, rm)) ∧
  (¬ exceeds v (needed_resources p) →
   ¬ exceeds v (available_resources rm) →
     ∃ safe, is_safe (granted k p v rm) = Some safe ∧
             request_resources q v rm =
               Some (safe, if safe then granted k p v rm else rm)).
Proof.
  intros Hwf H64 Hv Hfind. pose proof Hwf as [Ha _]. pose proof H64 as [Ha64 _].
  destruct (find_process_Some _ _ _ _ Hfind) as [Hk _].
  destruct (wf_lookup n rm k p Hwf Hk) as (_ & Hal & Hnd).
  pose proof (int64_lookup rm k p H64 Hk) as Hp64.
  unfold request_resources. rewrite Hfind.
  destruct (any_gt_same v (needed_resources p)) as (r1 & -> & Hr1); [congruence|].
  destruct (any_gt_same v (available_resources rm)) as (r2 & Hgt2 & Hr2); [congruence|].
  split.
  - intros [Hex|Hex]; simpl.
    + apply Hr1 in Hex as ->. done.
    + destruct r1; [done|]. rewrite Hgt2. simpl. apply Hr2 in Hex as ->. done.
  - intros Hn1 Hn2. simpl.
    destruct r1; [by destruct Hn1; apply Hr1|].
    rewrite Hgt2. simpl.
    destruct r2; [by destruct Hn2; apply Hr2|].
    rewrite !isub_same, iadd_same by congruence. simpl.
    fold (granted k p v rm).
    destruct (is_safe_total n (granted k p v rm)) as [safe Hsafe];
      [by apply wf_granted|].
    exists safe. split; [done|]. rewrite Hsafe. simpl. destruct safe; [done|].
    rewrite iadd_same, isub_same, iadd_same
      by (unfold vadd, vsub; rewrite length_zip_with; lia).
    simpl. do 2 f_equal.
    eapply (rollback k p rm); try done;
      first [apply isub_same | apply iadd_same];
      unfold vadd, vsub; rewrite ?length_zip_with; lia.
Qed.

(** C1.  On a well-formed ledger of int64 entries, for a pid that names a
    process [p] (the first with that pid, at position [k]) and a request
    vector [v] of int64 entries and of the ledger's length: the request
    fails without any change
    when [v] exceeds the need of [p] or the available resources in some
    component; otherwise the outcome is that of the safety check on the
    ledger with the request applied ([available -= v], [allocated += v],
    [needed -= v] as the arrays compute them), the call returning [True]
    and that ledger when it is safe, and [False] and the ledger it started
    from when it is not.  Where none of the three updates leaves the int64
    range, the ledger with the request applied is the one the integers'
    subtraction and addition give. *)
Theorem request_resources_spec n rm q v k p :
  wf n rm →
  int64_ledger rm →
  length v = n →
  Forall np.int64 v →
  find_process q rm = Some (k, p) →
  (exceeds v (needed_resources p) ∨ exceeds v (available_resources rm) →
     request_resources q v rm = Some (false, rm)) ∧
  (¬ exceeds v (needed_resources p) →
   ¬ exceeds v (available_resources rm) →
     ∃ safe, is_safe (granted k p v rm) = Some safe ∧
             request_resources q v rm =
               Some (safe, if safe then granted k p v rm else rm)) ∧
  (no_overflow Z.sub (available_resources rm) v →
   no_overflow Z.add (allocated_resources p) v →
   no_overflow Z.sub (needed_resources p) v →
     granted k p v rm = granted_exact k p v rm).
Proof.
  intros Hwf H64 Hv _ Hfind.
  destruct (request_resources_cases n rm q v k p Hwf H64 Hv Hfind) as [H1 H2].
  split_and!; [done|done|apply granted_no_overflow].
Qed.

Lemma request_resources_spec_witness :
  request_resources 1 [0; 1] (mkRM [1; 1] (processes scenario2) []) =
    Some (true,
          granted_exact 0
            (mkProcess 1 [1; 1] [1; 0] [0; 1] false 0 0 0 0 None None)
            [0; 1] (mkRM [1; 1] (processes scenario2) [])).
Proof.
  pose proof (request_resources_spec 2 (mkRM [1; 1] (processes scenario2) []) 1
                [0; 1] 0
                (mkProcess 1 [1; 1] [1; 0] [0; 1] false 0 0 0 0 None None)) as H.
  destruct H as (_ & H & Hexact).
  - split; [done|]. repeat constructor.
  - ledger_facts.
  - done.
  - ledger_facts.
  - done.
  - rewrite <- Hexact by ledger_facts.
    destruct H as (safe & Hsafe & ->).
    + intros (i & x & y & Hx & Hy & ?).
      destruct i as [|[|[|]]]; simplify_eq/=; lia.
    + intros (i & x & y & Hx & Hy & ?).
      destruct i as [|[|[|]]]; simplify_eq/=; lia.
    + vm_compute in Hsafe. by simplify_eq.
Defined.

(** C2.  On a ledger of int64 entries, a [request_resources] or
    [release_resources] call that returns [False] returns the ledger it
    was given: the available vector and every process are what they
    were. *)
Theorem failing_call_leaves_ledger c rm rm' :
  int64_ledger rm →
  do_call c rm = Some (false, rm') → rm' = rm.
Proof.
  intros H64. destruct c as [q v|q v]; simpl.
  - unfold request_resources.
    destruct (find_process q rm) as [[k p]|] eqn:Hfind; [|by intros [= <-]].
    destruct (find_process_Some _ _ _ _ Hfind) as [Hk _].
    pose proof (int64_lookup rm k p H64 Hk) as Hp64. destruct H64 as [Ha64 _].
    intros H. repeat (simplify_option_eq || case_match); try done.
    by erewrite rollback.
  - unfold release_resources.
    destruct (find_process q rm) as [[k p]|] eqn:Hfind; [|by intros [= <-]].
    intros H. repeat (simplify_option_eq || case_match); done.
Qed.

Lemma failing_call_leaves_ledger_witness :
  do_call (Request 1 [1; 0]) scenario2 = Some (false, scenario2) ∧
  do_call (Release 2 [1; 0]) scenario2 = Some (false, scenario2).
Proof.
  assert (H64 : int64_ledger scenario2) by ledger_facts.
  split.
  - assert (H : ∃ rm', do_call (Request 1 [1; 0]) scenario2 = Some (false, rm'))
      by (by eexists; vm_compute).
    destruct H as [rm' H].
    by rewrite H, (failing_call_leaves_ledger _ _ _ H64 H).
  - assert (H : ∃ rm', do_call (Release 2 [1; 0]) scenario2 = Some (false, rm'))
      by (by eexists; vm_compute).
    destruct H as [rm' H].
    by rewrite H, (failing_call_leaves_ledger _ _ _ H64 H).
Defined.

(** C10.  When no process of the ledger has the pid, [request_resources]
    and [release_resources] return [False] and the ledger unchanged, for
    every vector. *)
Theorem unknown_pid_rejected rm q v :
  Forall (λ p, pid p ≠ q) (processes rm) →
  request_resources q v rm = Some (false, rm) ∧
  release_resources q v rm = Some (false, rm).
Proof.
  intros H. apply (list_find_None (λ p, pid p = q)) in H.
  unfold request_resources, release_resources, find_process. by rewrite H.
Qed.

Lemma unknown_pid_rejected_witness :
  request_resources 7 [5; 5; 5] scenario2 = Some (false, scenario2) ∧
  release_resources 7 [] scenario2 = Some (false, scenario2).
Proof.
  split.
  - apply (unknown_pid_rejected scenario2 7 [5; 5; 5]). by repeat constructor.
  - apply (unknown_pid_rejected scenario2 7 []). by repeat constructor.
Defined.

(** ** The scan over the integers *)

Lemma default_lookup_nonneg a i : nonneg a → 0 ≤ default 0 (a !! i).
Proof.
  intros H. destruct (a !! i) as [x|] eqn:Hx; simpl; [|lia].
  by apply (Forall_lookup_1 _ _ _ _ H Hx).
Qed.

Lemma nonneg_default a : (∀ i, 0 ≤ default 0 (a !! i)) → nonneg a.
Proof.
  intros H. apply Forall_lookup. intros i x Hx. specialize (H i).
  by rewrite Hx in H.
Qed.

Lemma zip_with_ext_lookup {A B C} (f g : A → B → C) a b :
  (∀ i x y, a !! i = Some x → b !! i = Some y → f x y = g x y) →
  zip_with f a b = zip_with g a b.
Proof.
  revert b. induction a as [|x a IH]; intros [|y b] H; simpl; try done.
  f_equal; [by apply (H 0%nat)|]. apply IH. intros i. apply (H (S i)).
Qed.

Lemma pending_at_nonneg i ps : ∀ finish,
  Forall (λ p, nonneg (allocated_resources p)) ps →
  0 ≤ pending_at i ps finish.
Proof.
  unfold pending_at.
  induction ps as [|p ps IH]; intros [|b f] H; simpl; try lia.
  apply Forall_cons in H as [Hp H]. specialize (IH f H).
  pose proof (default_lookup_nonneg _ i Hp). destruct b; lia.
Qed.

Lemma pending_at_replicate i ps :
  pending_at i ps (replicate (length ps) false) = held_at i ps.
Proof.
  unfold pending_at, held_at. induction ps as [|p ps IH]; simpl; [done|].
  by rewrite IH.
Qed.

Lemma pending_at_insert i ps : ∀ finish k p,
  ps !! k = Some p → finish !! k = Some false →
  pending_at i ps (<[k := true]> finish) =
    pending_at i ps finish - default 0 (allocated_resources p !! i).
Proof.
  unfold pending_at.
  induction ps as [|p0 ps IH]; intros [|b f] [|k] p Hk Hf; simplify_eq/=; [lia|].
  rewrite (IH f k p Hk Hf). lia.
Qed.

(** As long as [work] plus what the unfinished processes hold stays below
    [2^63] in every component, a step of the scan in the arrays'
    arithmetic is a step of the scan over the integers. *)
Lemma bankers_step_exact ps (T : nat → Z) st st' :
  Forall (λ p, nonneg (allocated_resources p)) ps →
  (∀ i, T i < 2 ^ 63) →
  (∀ i, 0 ≤ default 0 (st.1 !! i) ∧
        default 0 (st.1 !! i) + pending_at i ps st.2 ≤ T i) →
  bankers_step np.add64 ps st st' →
  bankers_step Z.add ps st st' ∧
  (∀ i, 0 ≤ default 0 (st'.1 !! i) ∧
        default 0 (st'.1 !! i) + pending_at i ps st'.2 ≤ T i).
Proof.
  intros Hnn HT Hinv Hstep.
  destruct Hstep as [k p work finish Hp Hf Hle]. simpl in *.
  assert (Hp0 : nonneg (allocated_resources p))
    by apply (Forall_lookup_1 _ _ _ _ Hnn Hp).
  assert (Hpt : ∀ j x y, work !! j = Some x →
                         allocated_resources p !! j = Some y →
                         np.add64 x y = x + y).
  { intros j x y Hx Hy. apply wrap_id. destruct (Hinv j) as [H0 H1].
    rewrite Hx in H0, H1. simpl in *.
    pose proof (pending_at_insert j ps finish k p Hp Hf) as Hins.
    rewrite Hy in Hins. simpl in Hins.
    pose proof (pending_at_nonneg j ps (<[k:=true]> finish) Hnn).
    pose proof (Forall_lookup_1 _ _ _ _ Hp0 Hy). simpl in *.
    pose proof (HT j). unfold np.int64. lia. }
  rewrite (zip_with_ext_lookup np.add64 Z.add _ _ Hpt).
  split; [by constructor|].
  intros j. destruct (Hinv j) as [H0 H1].
  pose proof (pending_at_insert j ps finish k p Hp Hf) as Hins.
  pose proof (pending_at_nonneg j ps (<[k:=true]> finish) Hnn).
  pose proof (default_lookup_nonneg _ j Hp0).
  rewrite lookup_zip_with.
  destruct (work !! j) as [x|]; destruct (allocated_resources p !! j) as [y|];
    simpl in *; lia.
Qed.

Lemma bankers_scan_exact ps (T : nat → Z) st st' :
  Forall (λ p, nonneg (allocated_resources p)) ps →
  (∀ i, T i < 2 ^ 63) →
  (∀ i, 0 ≤ default 0 (st.1 !! i) ∧
        default 0 (st.1 !! i) + pending_at i ps st.2 ≤ T i) →
  rtc (bankers_step np.add64 ps) st st' →
  rtc (bankers_step Z.add ps) st st'.
Proof.
  intros Hnn HT Hinv Hrtc.
  induction Hrtc as [st|st st1 st' Hstep Hrtc IH]; [done|].
  destruct (bankers_step_exact ps T st st1 Hnn HT Hinv Hstep) as [Hs Hinv1].
  eapply rtc_l; [exact Hs|]. by apply IH.
Qed.

(** C4.  On a well-formed ledger [is_safe] runs the Banker's scan from
    [work = available] and nobody finished, adding allocations to [work]
    as the arrays do, to a state in which no unfinished process fits into
    [work], and returns [True] exactly when every process is finished
    there; with no processes it returns [True].  When no entry of the
    available vector or of an allocation is negative and the total of
    every resource is below [2^63], no addition wraps around and the scan
    is the scan over the integers. *)
Theorem is_safe_bankers_scan n rm :
  wf n rm →
  ∃ work finish safe,
    rtc (bankers_step np.add64 (processes rm))
      (available_resources rm, replicate (length (processes rm)) false)
      (work, finish) ∧
    bankers_stuck (processes rm) (work, finish) ∧
    length finish = length (processes rm) ∧
    is_safe rm = Some safe ∧
    (safe = true ↔ ∀ i, (i < length (processes rm))%nat → finish !! i = Some true) ∧
    (processes rm = [] → safe = true) ∧
    (nonneg_ledger rm → (∀ i, total_at i rm < 2 ^ 63) →
     rtc (bankers_step Z.add (processes rm))
       (available_resources rm, replicate (length (processes rm)) false)
       (work, finish)).
Proof.
  intros Hwf.
  destruct (safe_run_total n rm Hwf) as (work & finish & Hrun & Hlen & Hrtc & Hstuck).
  exists work, finish, (forallb id finish).
  split_and!; try done.
  - unfold is_safe. by rewrite Hrun.
  - rewrite <- Is_true_true, forallb_True, Forall_lookup. split.
    + intros Hall i Hi. rewrite <- Hlen in Hi.
      destruct (lookup_lt_is_Some_2 _ _ Hi) as [b Hb].
      specialize (Hall i b Hb). destruct b; done.
    + intros Hall i b Hb. pose proof (lookup_lt_Some _ _ _ Hb) as Hi.
      rewrite Hlen in Hi. specialize (Hall i Hi). by simplify_eq.
  - intros Hnil. rewrite Hnil in Hlen. by destruct finish.
  - intros [Ha0 Hps0] HT.
    apply (bankers_scan_exact _ (λ i, total_at i rm)); [done|done| |done].
    intros i. simpl. rewrite pending_at_replicate.
    pose proof (default_lookup_nonneg _ i Ha0). unfold total_at. lia.
Qed.

Lemma is_safe_bankers_scan_witness : is_safe scenario2 = Some false.
Proof.
  destruct (is_safe_bankers_scan 2 scenario2) as (w & f & s & _ & _ & _ & H & _).
  - split; [done|]. repeat constructor.
  - rewrite H. vm_compute in H. by simplify_eq.
Defined.

(** ** Conservation *)

Lemma held_at_insert i k p p' ps :
  ps !! k = Some p →
  held_at i (<[k := p']> ps) =
    held_at i ps - default 0 (allocated_resources p !! i)
                 + default 0 (allocated_resources p' !! i).
Proof.
  revert k. induction ps as [|p0 ps IH]; intros [|k] Hk; simplify_eq/=; [lia|].
  rewrite (IH _ Hk). lia.
Qed.

Lemma held_at_nonneg i ps :
  Forall (λ p, nonneg (allocated_resources p)) ps → 0 ≤ held_at i ps.
Proof.
  induction 1 as [|p ps Hp _ IH]; simpl; [lia|].
  pose proof (default_lookup_nonneg _ i Hp). lia.
Qed.

Lemma held_at_lookup_le i ps k p :
  Forall (λ p, nonneg (allocated_resources p)) ps →
  ps !! k = Some p →
  default 0 (allocated_resources p !! i) ≤ held_at i ps.
Proof.
  intros H. revert k. induction H as [|p0 ps Hp0 Hps IH]; intros [|k] Hk;
    simplify_eq/=.
  - pose proof (held_at_nonneg i ps Hps). lia.
  - specialize (IH k Hk). pose proof (default_lookup_nonneg _ i Hp0). lia.
Qed.

Lemma lookup_vadd a b i :
  length a = length b →
  default 0 (vadd a b !! i) =
    np.add64 (default 0 (a !! i)) (default 0 (b !! i)).
Proof.
  intros Hl. unfold vadd. rewrite lookup_zip_with.
  destruct (a !! i) as [x|] eqn:Hx; simpl.
  - destruct (lookup_lt_is_Some_2 b i) as [y Hy];
      [apply lookup_lt_Some in Hx; lia|]. by rewrite Hy.
  - apply lookup_ge_None in Hx. rewrite (lookup_ge_None_2 b i) by lia. done.
Qed.

Lemma lookup_vsub a b i :
  length a = length b →
  default 0 (vsub a b !! i) =
    np.sub64 (default 0 (a !! i)) (default 0 (b !! i)).
Proof.
  intros Hl. unfold vsub. rewrite lookup_zip_with.
  destruct (a !! i) as [x|] eqn:Hx; simpl.
  - destruct (lookup_lt_is_Some_2 b i) as [y Hy];
      [apply lookup_lt_Some in Hx; lia|]. by rewrite Hy.
  - apply lookup_ge_None in Hx. rewrite (lookup_ge_None_2 b i) by lia. done.
Qed.

Lemma not_exceeds_default v a i :
  length v = length a → ¬ exceeds v a →
  default 0 (v !! i) ≤ default 0 (a !! i).
Proof.
  intros Hl Hex. destruct (v !! i) as [x|] eqn:Hx; simpl.
  - destruct (lookup_lt_is_Some_2 a i) as [y Hy];
      [apply lookup_lt_Some in Hx; lia|]. rewrite Hy. simpl.
    destruct (decide (x ≤ y)); [done|]. destruct Hex.
    exists i, x, y. split_and!; [done..|lia].
  - apply lookup_ge_None in Hx. rewrite (lookup_ge_None_2 a i) by lia.
    simpl. lia.
Qed.

(** In the arithmetic of the arrays, a granted request and a release leave
    the total of every resource as it was: the wrapped updates change it by
    a multiple of [2^64]. *)
Lemma total_at_granted_wrap n i k p v rm :
  wf n rm → processes rm !! k = Some p → length v = n →
  np.wrap (total_at i (granted k p v rm)) = np.wrap (total_at i rm).
Proof.
  intros Hwf Hk Hv. pose proof Hwf as [Ha _].
  destruct (wf_lookup n rm k p Hwf Hk) as (_ & Hal & Hnd).
  unfold total_at, granted. simpl.
  rewrite (held_at_insert i k p) by done. simpl.
  rewrite lookup_vsub, lookup_vadd by congruence.
  unfold np.sub64, np.add64.
  destruct (wrap_eq (default 0 (available_resources rm !! i) - default 0 (v !! i)))
    as [k1 ->].
  destruct (wrap_eq (default 0 (allocated_resources p !! i) + default 0 (v !! i)))
    as [k2 ->].
  rewrite <- (wrap_shift (_ + held_at i (processes rm)) (k1 + k2)).
  f_equal. lia.
Qed.

Lemma total_at_released_wrap n i k p v rm :
  wf n rm → processes rm !! k = Some p → length v = n →
  np.wrap (total_at i (released k p v rm)) = np.wrap (total_at i rm).
Proof.
  intros Hwf Hk Hv. pose proof Hwf as [Ha _].
  destruct (wf_lookup n rm k p Hwf Hk) as (_ & Hal & Hnd).
  unfold total_at, released. simpl.
  rewrite (held_at_insert i k p) by done. simpl.
  rewrite lookup_vsub, lookup_vadd by congruence.
  unfold np.sub64, np.add64.
  destruct (wrap_eq (default 0 (available_resources rm !! i) + default 0 (v !! i)))
    as [k1 ->].
  destruct (wrap_eq (default 0 (allocated_resources p !! i) - default 0 (v !! i)))
    as [k2 ->].
  rewrite <- (wrap_shift (_ + held_at i (processes rm)) (k1 + k2)).
  f_equal. lia.
Qed.

(** With no negative entries and every total below [2^63], a granted
    request of a non-negative vector does not wrap around: the total of
    every resource is what it was, and no entry becomes negative. *)
Lemma granted_conserves n k p v rm :
  wf n rm → nonneg_ledger rm → (∀ i, total_at i rm < 2 ^ 63) →
  processes rm !! k = Some p → length v = n → nonneg v →
  ¬ exceeds v (available_resources rm) →
  nonneg_ledger (granted k p v rm) ∧
  ∀ i, total_at i (granted k p v rm) = total_at i rm.
Proof.
  intros Hwf [Ha0 Hps0] HT Hk Hv Hv0 Hex. pose proof Hwf as [Ha _].
  destruct (wf_lookup n rm k p Hwf Hk) as (_ & Hal & Hnd).
  assert (Hp0 : nonneg (allocated_resources p))
    by apply (Forall_lookup_1 _ _ _ _ Hps0 Hk).
  assert (Hentries : ∀ i,
    default 0 (vsub (available_resources rm) v !! i) =
      default 0 (available_resources rm !! i) - default 0 (v !! i) ∧
    default 0 (vadd (allocated_resources p) v !! i) =
      default 0 (allocated_resources p !! i) + default 0 (v !! i) ∧
    0 ≤ default 0 (available_resources rm !! i) - default 0 (v !! i) ∧
    0 ≤ default 0 (allocated_resources p !! i) + default 0 (v !! i)).
  { intros i. rewrite lookup_vsub, lookup_vadd by congruence.
    pose proof (default_lookup_nonneg _ i Hv0).
    pose proof (default_lookup_nonneg _ i Ha0).
    pose proof (default_lookup_nonneg _ i Hp0).
    pose proof (not_exceeds_default v (available_resources rm) i
                  ltac:(congruence) Hex).
    pose proof (held_at_lookup_le i _ k p Hps0 Hk).
    pose proof (HT i) as HTi. unfold total_at in HTi.
    unfold np.sub64, np.add64.
    rewrite !wrap_id by (unfold np.int64; lia). lia. }
  split.
  - split; simpl.
    + apply nonneg_default. intros i. destruct (Hentries i) as (-> & _ & ? & _). done.
    + apply Forall_insert; [done|]. simpl.
      apply nonneg_default. intros i. destruct (Hentries i) as (_ & -> & _ & ?). done.
  - intros i. unfold total_at, granted. simpl.
    rewrite (held_at_insert i k p) by done. simpl.
    destruct (Hentries i) as (-> & -> & _ & _). lia.
Qed.

Lemma released_conserves n k p v rm :
  wf n rm → nonneg_ledger rm → (∀ i, total_at i rm < 2 ^ 63) →
  processes rm !! k = Some p → length v = n → nonneg v →
  ¬ exceeds v (allocated_resources p) →
  nonneg_ledger (released k p v rm) ∧
  ∀ i, total_at i (released k p v rm) = total_at i rm.
Proof.
  intros Hwf [Ha0 Hps0] HT Hk Hv Hv0 Hex. pose proof Hwf as [Ha _].
  destruct (wf_lookup n rm k p Hwf Hk) as (_ & Hal & Hnd).
  assert (Hp0 : nonneg (allocated_resources p))
    by apply (Forall_lookup_1 _ _ _ _ Hps0 Hk).
  assert (Hentries : ∀ i,
    default 0 (vadd (available_resources rm) v !! i) =
      default 0 (available_resources rm !! i) + default 0 (v !! i) ∧
    default 0 (vsub (allocated_resources p) v !! i) =
      default 0 (allocated_resources p !! i) - default 0 (v !! i) ∧
    0 ≤ default 0 (available_resources rm !! i) + default 0 (v !! i) ∧
    0 ≤ default 0 (allocated_resources p !! i) - default 0 (v !! i)).
  { intros i. rewrite lookup_vsub, lookup_vadd by congruence.
    pose proof (default_lookup_nonneg _ i Hv0).
    pose proof (default_lookup_nonneg _ i Ha0).
    pose proof (default_lookup_nonneg _ i Hp0).
    pose proof (not_exceeds_default v (allocated_resources p) i
                  ltac:(congruence) Hex).
    pose proof (held_at_lookup_le i _ k p Hps0 Hk).
    pose proof (HT i) as HTi. unfold total_at in HTi.
    unfold np.sub64, np.add64.
    rewrite !wrap_id by (unfold np.int64; lia). lia. }
  split.
  - split; simpl.
    + apply nonneg_default. intros i. destruct (Hentries i) as (-> & _ & ? & _). done.
    + apply Forall_insert; [done|]. simpl.
      apply nonneg_default. intros i. destruct (Hentries i) as (_ & -> & _ & ?). done.
  - intros i. unfold total_at, released. simpl.
    rewrite (held_at_insert i k p) by done. simpl.
    destruct (Hentries i) as (-> & -> & _ & _). lia.
Qed.

Lemma exceeds_cases a b :
  length a = length b → exceeds a b ∨ ¬ exceeds a b.
Proof.
  intros Hl. destruct (any_gt_same a b Hl) as ([] & _ & Hr).
  - left. by apply Hr.
  - right. intros Hex. by apply Hr in Hex.
Qed.

(** What [release_resources] does on a well-formed ledger. *)
Lemma release_resources_spec n rm q v k p :
  wf n rm →
  length v = n →
  find_process q rm = Some (k, p) →
  (exceeds v (allocated_resources p) →
     release_resources q v rm = Some (false, rm)) ∧
  (¬ exceeds v (allocated_resources p) →
     release_resources q v rm = Some (true, released k p v rm)).
Proof.
  intros Hwf Hv Hfind. pose proof Hwf as [Ha _].
  destruct (find_process_Some _ _ _ _ Hfind) as [Hk _].
  destruct (wf_lookup n rm k p Hwf Hk) as (_ & Hal & Hnd).
  unfold release_resources. rewrite Hfind.
  destruct (any_gt_same v (allocated_resources p)) as (r & -> & Hr); [congruence|].
  simpl. split.
  - intros Hex. by apply Hr in Hex as ->.
  - intros Hex. destruct r; [by destruct Hex; apply Hr|].
    rewrite iadd_same, isub_same, iadd_same by congruence. done.
Qed.

(** A call on a well-formed ledger of int64 entries returns, with such a
    ledger; the total of every resource is what it was in the arithmetic
    of the arrays, and exactly so when nothing is negative and the totals
    are below [2^63]. *)
Lemma do_call_conserves n c rm :
  wf n rm →
  int64_ledger rm →
  length (call_vector c) = n →
  ∃ b rm', do_call c rm = Some (b, rm') ∧ wf n rm' ∧ int64_ledger rm' ∧
           (∀ i, np.wrap (total_at i rm') = np.wrap (total_at i rm)) ∧
           (nonneg_ledger rm → (∀ i, total_at i rm < 2 ^ 63) →
            nonneg (call_vector c) →
            nonneg_ledger rm' ∧ ∀ i, total_at i rm' = total_at i rm).
Proof.
  intros Hwf H64 Hv. pose proof Hwf as [Ha _]. destruct c as [q v|q v]; simpl in *.
  - destruct (find_process q rm) as [[k p]|] eqn:Hfind.
    + destruct (find_process_Some _ _ _ _ Hfind) as [Hk _].
      destruct (wf_lookup n rm k p Hwf Hk) as (_ & Hal & Hnd).
      destruct (request_resources_cases n rm q v k p Hwf H64 Hv Hfind) as [Hbad Hok].
      destruct (exceeds_cases v (needed_resources p)) as [Hex1|Hex1]; [congruence| |].
      { exists false, rm. rewrite Hbad by by left. done. }
      destruct (exceeds_cases v (available_resources rm)) as [Hex2|Hex2]; [congruence| |].
      { exists false, rm. rewrite Hbad by by right. done. }
      destruct (Hok Hex1 Hex2) as (safe & _ & ->).
      destruct safe; [|by exists false, rm].
      exists true, (granted k p v rm). split_and!; [done| | | |].
      * by apply wf_granted.
      * by apply int64_granted.
      * intros i. by apply (total_at_granted_wrap n).
      * intros H0 HT Hv0. by apply (granted_conserves n).
    + exists false, rm. unfold request_resources. by rewrite Hfind.
  - destruct (find_process q rm) as [[k p]|] eqn:Hfind.
    + destruct (find_process_Some _ _ _ _ Hfind) as [Hk _].
      destruct (wf_lookup n rm k p Hwf Hk) as (_ & Hal & Hnd).
      destruct (release_resources_spec n rm q v k p Hwf Hv Hfind) as [Hbad Hok].
      destruct (exceeds_cases v (allocated_resources p)) as [Hex|Hex]; [congruence| |].
      { exists false, rm. by rewrite (Hbad Hex). }
      exists true, (released k p v rm). rewrite (Hok Hex). split_and!; [done| | | |].
      * by apply wf_released.
      * by apply int64_released.
      * intros i. by apply (total_at_released_wrap n).
      * intros H0 HT Hv0. by apply (released_conserves n).
    + exists false, rm. unfold release_resources. by rewrite Hfind.
Qed.

(** A sequence of calls: the totals after every call. *)
Lemma do_calls_conserve n cs : ∀ rm,
  wf n rm →
  int64_ledger rm →
  Forall (λ c, length (call_vector c) = n) cs →
  ∃ rs, do_calls cs rm = Some rs ∧
        length rs = length cs ∧
        Forall (λ r, ∀ i, np.wrap (total_at i r.2) = np.wrap (total_at i rm)) rs ∧
        (nonneg_ledger rm → (∀ i, total_at i rm < 2 ^ 63) →
         Forall (λ c, nonneg (call_vector c)) cs →
         Forall (λ r, ∀ i, total_at i r.2 = total_at i rm) rs).
Proof.
  induction cs as [|c cs IH]; intros rm Hwf H64 Hcs.
  - exists []. by split_and!.
  - apply Forall_cons in Hcs as [Hc Hcs].
    destruct (do_call_conserves n c rm Hwf H64 Hc)
      as (b & rm1 & Hcall & Hwf1 & H641 & Hwrap & Hexact).
    destruct (IH rm1 Hwf1 H641 Hcs) as (rs & Hrs & Hlen & Hall & Hall').
    exists ((b, rm1) :: rs). cbn [do_calls]. rewrite Hcall. simpl. rewrite Hrs. simpl.
    split_and!; [done|by rewrite Hlen| |].
    + constructor; [done|].
      eapply Forall_impl; [exact Hall|]. intros r Hr i. simpl in Hr.
      by rewrite Hr.
    + intros H0 HT Hv0. apply Forall_cons in Hv0 as [Hc0 Hcs0].
      destruct (Hexact H0 HT Hc0) as [H01 Htot].
      constructor; [done|].
      eapply Forall_impl; [apply Hall'|]; [done| |done|].
      * intros i. rewrite Htot. apply HT.
      * intros r Hr i. simpl in Hr. by rewrite Hr.
Qed.

(** C3, as the code has it.  From a well-formed ledger of int64 entries,
    every sequence of [request_resources] and [release_resources] calls
    with vectors of int64 entries and of the ledger's length runs to its
    end.  After each call, whatever it returned, the available amount of
    every resource plus the amounts allocated to the processes is what it
    was at the start up to a multiple of [2^64], the arrays' arithmetic
    wrapping around: it is what it was whenever both totals are int64
    values.  That is so after every call when the ledger has no negative
    available or allocated entry, every total is below [2^63] and the
    vectors of the calls have no negative entry. *)
Theorem conservation n cs rm :
  wf n rm →
  int64_ledger rm →
  Forall (λ c, length (call_vector c) = n ∧ Forall np.int64 (call_vector c)) cs →
  ∃ rs, do_calls cs rm = Some rs ∧
        length rs = length cs ∧
        Forall (λ r, ∀ i,
                  np.wrap (total_at i r.2) = np.wrap (total_at i rm) ∧
                  (np.int64 (total_at i rm) → np.int64 (total_at i r.2) →
                   total_at i r.2 = total_at i rm)) rs ∧
        (nonneg_ledger rm → (∀ i, total_at i rm < 2 ^ 63) →
         Forall (λ c, nonneg (call_vector c)) cs →
         Forall (λ r, ∀ i, total_at i r.2 = total_at i rm) rs).
Proof.
  intros Hwf H64 Hcs.
  destruct (do_calls_conserve n cs rm Hwf H64) as (rs & Hrs & Hlen & Hall & Hexact).
  { eapply Forall_impl; [exact Hcs|]. by intros c [? _]. }
  exists rs. split_and!; [done|done| |done].
  eapply Forall_impl; [exact Hall|]. intros r Hr i. split; [done|].
  intros H1 H2. by rewrite <- (wrap_id _ H1), <- (wrap_id _ H2).
Qed.

Lemma conservation_witness :
  ∃ rs, do_calls [Request 1 [0; 1]; Release 1 [1; 1]; Request 2 [3; 0];
                  Release 5 [0; 0]]
          (mkRM [1; 1] (processes scenario2) []) = Some rs ∧
        length rs = 4%nat ∧
        Forall (λ r, ∀ i, total_at i r.2 =
                          total_at i (mkRM [1; 1] (processes scenario2) [])) rs.
Proof.
  destruct (conservation 2
              [Request 1 [0; 1]; Release 1 [1; 1]; Request 2 [3; 0];
               Release 5 [0; 0]]
              (mkRM [1; 1] (processes scenario2) []))
    as (rs & Hrs & Hlen & _ & Hexact).
  - split; [done|]. repeat constructor.
  - ledger_facts.
  - ledger_facts.
  - exists rs. split_and!; [done|done|]. apply Hexact.
    + ledger_facts.
    + intros [|[|i]]; vm_compute; done.
    + ledger_facts.
Defined.

(** C3, as the specification words it, fails: the total of resource 0 is
    [2^63] in [overflow_ledger]; when process 1 releases its unit, the
    available entry wraps around to [-2^63] and the total with it. *)
Lemma conservation_overflow :
  ∃ rm', do_call (Release 1 [1]) overflow_ledger = Some (true, rm') ∧
         wf 1 overflow_ledger ∧ int64_ledger overflow_ledger ∧
         nonneg_ledger overflow_ledger ∧
         total_at 0 overflow_ledger = 2 ^ 63 ∧
         total_at 0 rm' = - 2 ^ 63.
Proof.
  eexists. split; [by vm_compute|].
  split_and!; [split; [done|]; repeat constructor|ledger_facts|ledger_facts|done|done].
Qed.

(** ** The graph library *)

Lemma elem_of_edges g u v :
  (u, v) ∈ edges g ↔ ∃ vs, (u, vs) ∈ g ∧ v ∈ vs.
Proof.
  unfold edges. rewrite list_elem_of_bind. split.
  - intros ([u' vs] & Hin & Hg). simpl in Hin.
    apply list_elem_of_fmap in Hin as (v' & [= -> ->] & Hv). by exists vs.
  - intros (vs & Hg & Hv). exists (u, vs). split; [|done].
    simpl. apply list_elem_of_fmap. by exists v.
Qed.

Lemma has_node_true n g : has_node n g = true ↔ n ∈ nodes g.
Proof. unfold has_node. by rewrite bool_decide_eq_true. Qed.

Lemma edges_app g1 g2 : edges (g1 ++ g2) = edges g1 ++ edges g2.
Proof. unfold edges. by rewrite bind_app. Qed.

Lemma edges_add_node n g : edges (add_node n g) = edges g.
Proof.
  unfold add_node. destruct (has_node n g); [done|].
  rewrite edges_app. simpl. by rewrite app_nil_r.
Qed.

Lemma nodes_add_node x n g : x ∈ nodes (add_node n g) ↔ x = n ∨ x ∈ nodes g.
Proof.
  unfold add_node. destruct (has_node n g) eqn:Hn.
  - apply has_node_true in Hn. split; [by right|]. by intros [->|].
  - unfold nodes. rewrite fmap_app, elem_of_app. simpl.
    rewrite list_elem_of_singleton. tauto.
Qed.

Lemma nodes_fmap_add_successor u v g : nodes (add_successor u v <$> g) = nodes g.
Proof.
  unfold nodes. rewrite <- list_fmap_compose. apply list_fmap_ext.
  intros i [w vs] _. unfold add_successor. simpl. by case_decide.
Qed.

Lemma nodes_add_edge x u v g :
  x ∈ nodes (add_edge u v g) ↔ x = u ∨ x = v ∨ x ∈ nodes g.
Proof.
  unfold add_edge. rewrite nodes_fmap_add_successor, !nodes_add_node. tauto.
Qed.

Lemma edges_fmap_add_successor e u v g :
  u ∈ nodes g →
  e ∈ edges (add_successor u v <$> g) ↔ e = (u, v) ∨ e ∈ edges g.
Proof.
  intros Hu. destruct e as [a b]. rewrite !elem_of_edges. split.
  - intros (vs & Hin & Hb). apply list_elem_of_fmap in Hin as ([w ws] & Heq & Hin).
    unfold add_successor in Heq. simpl in Heq. case_decide; simplify_eq.
    + case_decide.
      * right. by exists ws.
      * apply elem_of_app in Hb as [Hb|Hb].
        -- right. by exists ws.
        -- apply list_elem_of_singleton in Hb as ->. by left.
    + right. by exists ws.
  - intros [[= -> ->]|(vs & Hin & Hb)].
    + apply list_elem_of_fmap in Hu as ([w ws] & -> & Hin). simpl.
      exists (if decide (v ∈ ws) then ws else ws ++ [v]). split.
      * apply list_elem_of_fmap. exists (w, ws). split; [|done].
        unfold add_successor. simpl. by destruct (decide (w = w)).
      * case_decide; [done|]. apply elem_of_app. right. by apply list_elem_of_singleton.
    + exists (add_successor u v (a, vs)).2. split.
      * apply list_elem_of_fmap. exists (a, vs). split; [|done].
        unfold add_successor. simpl. by repeat case_decide.
      * unfold add_successor. simpl. repeat case_decide; simpl; try done.
        apply elem_of_app. by left.
Qed.

Lemma edges_add_edge e u v g :
  e ∈ edges (add_edge u v g) ↔ e = (u, v) ∨ e ∈ edges g.
Proof.
  unfold add_edge. rewrite edges_fmap_add_successor.
  - by rewrite !edges_add_node.
  - rewrite !nodes_add_node. tauto.
Qed.

(** ** The graph [detect_deadlock] builds *)

Lemma allocation_edges_edges q alloc : ∀ i g e,
  e ∈ edges (allocation_edges q i alloc g) ↔
  e ∈ edges g ∨
  ∃ j a, alloc !! j = Some a ∧ 0 < a ∧ e = (R (i + j), P q).
Proof.
  induction alloc as [|a alloc IH]; intros i g e; simpl.
  - split; [by left|]. intros [?|(j & ? & Hj & _)]; [done|].
    by rewrite lookup_nil in Hj.
  - rewrite IH. split.
    + intros [He|(j & a' & Hj & Ha & ->)].
      * destruct (0 <? a) eqn:Hpos; [|by left].
        apply edges_add_edge in He as [->|He].
        -- right. exists 0%nat, a. rewrite Nat.add_0_r.
           split_and!; [done| |done]. by apply Z.ltb_lt.
        -- left. by rewrite edges_add_node in He.
      * right. exists (S j), a'. split_and!; [done..|]. do 2 f_equal. lia.
    + intros [He|([|j] & a' & Hj & Ha & ->)]; simplify_eq/=.
      * left. destruct (0 <? a); [|done].
        apply edges_add_edge. right. by rewrite edges_add_node.
      * left. apply Z.ltb_lt in Ha as ->. apply edges_add_edge. left.
        by rewrite Nat.add_0_r.
      * right. exists j, a'. split_and!; [done..|]. do 2 f_equal. lia.
Qed.

Lemma allocation_edges_resources q alloc : ∀ i g r,
  R r ∈ nodes (allocation_edges q i alloc g) ↔
  R r ∈ nodes g ∨ ∃ j a, alloc !! j = Some a ∧ 0 < a ∧ r = (i + j)%nat.
Proof.
  induction alloc as [|a alloc IH]; intros i g r; simpl.
  - split; [by left|]. intros [?|(j & ? & Hj & _)]; [done|].
    by rewrite lookup_nil in Hj.
  - rewrite IH. split.
    + intros [He|(j & a' & Hj & Ha & ->)].
      * destruct (0 <? a) eqn:Hpos; [|by left].
        apply nodes_add_edge in He as [[= ->]|[?|He]]; [|done|].
        -- right. exists 0%nat, a. rewrite Nat.add_0_r.
           split_and!; [done| |done]. by apply Z.ltb_lt.
        -- apply nodes_add_node in He as [[= ->]|He]; [|by left].
           right. exists 0%nat, a. rewrite Nat.add_0_r.
           split_and!; [done| |done]. by apply Z.ltb_lt.
      * right. exists (S j), a'. split_and!; [done..|]. lia.
    + intros [He|([|j] & a' & Hj & Ha & ->)]; simplify_eq/=.
      * left. destruct (0 <? a); [|done].
        apply nodes_add_edge. do 2 right. apply nodes_add_node. by right.
      * left. apply Z.ltb_lt in Ha as ->. apply nodes_add_edge. left.
        by rewrite Nat.add_0_r.
      * right. exists j, a'. split_and!; [done..|]. lia.
Qed.

Lemma allocation_fold_edges ps : ∀ g e,
  e ∈ edges (foldl (λ g p, allocation_edges (pid p) 0 (allocated_resources p)
                             (add_node (P (pid p)) g)) g ps) ↔
  e ∈ edges g ∨
  ∃ p j a, p ∈ ps ∧ allocated_resources p !! j = Some a ∧ 0 < a ∧
           e = (R j, P (pid p)).
Proof.
  induction ps as [|p ps IH]; intros g e; simpl.
  - split; [by left|]. intros [?|(? & ? & ? & Hp & _)]; [done|].
    by apply elem_of_nil in Hp.
  - rewrite IH, allocation_edges_edges, edges_add_node. split.
    + intros [[?|(j & a & ? & ? & ->)]|(p' & j & a & ? & ? & ? & ->)].
      * by left.
      * right. exists p, j, a. split_and!; try done. apply list_elem_of_here.
      * right. exists p', j, a. split_and!; try done. by apply list_elem_of_further.
    + intros [?|(p' & j & a & Hp & ? & ? & ->)]; [by do 2 left|].
      apply elem_of_cons in Hp as [->|Hp].
      * left. right. by exists j, a.
      * right. by exists p', j, a.
Qed.

Lemma allocation_fold_resources ps : ∀ g r,
  R r ∈ nodes (foldl (λ g p, allocation_edges (pid p) 0 (allocated_resources p)
                               (add_node (P (pid p)) g)) g ps) ↔
  R r ∈ nodes g ∨
  ∃ p a, p ∈ ps ∧ allocated_resources p !! r = Some a ∧ 0 < a.
Proof.
  induction ps as [|p ps IH]; intros g r; simpl.
  - split; [by left|]. intros [?|(? & ? & Hp & _)]; [done|].
    by apply elem_of_nil in Hp.
  - rewrite IH, allocation_edges_resources, nodes_add_node. split.
    + intros [[[?|?]|(j & a & ? & ? & ->)]|(p' & a & ? & ? & ?)]; try done.
      * by left.
      * right. exists p, a. split_and!; try done. apply list_elem_of_here.
      * right. exists p', a. split_and!; try done. by apply list_elem_of_further.
    + intros [?|(p' & a & Hp & ? & ?)]; [by left; left; right|].
      apply elem_of_cons in Hp as [->|Hp].
      * left. right. by exists r, a.
      * right. by exists p', a.
Qed.

Lemma request_edges_spec avail q need : ∀ i g,
  (i + length need ≤ length avail)%nat →
  ∃ g', request_edges avail q i need g = Some g' ∧
        (∀ r, R r ∈ nodes g' ↔ R r ∈ nodes g) ∧
        (∀ e, e ∈ edges g' ↔
              e ∈ edges g ∨
              ∃ j d a, need !! j = Some d ∧ 0 < d ∧
                       avail !! (i + j)%nat = Some a ∧ a < d ∧
                       R (i + j) ∈ nodes g ∧ e = (P q, R (i + j))).
Proof.
  induction need as [|d need IH]; intros i g Hlen; simpl in *.
  - exists g. split_and!; [done..|]. intros e. split; [by left|].
    intros [?|(j & ? & ? & Hj & _)]; [done|]. by rewrite lookup_nil in Hj.
  - destruct (lookup_lt_is_Some_2 avail i) as [a Ha]; [lia|].
    set (g1 := if 0 <? d
               then (if (a <? d) && has_node (R i) g
                     then add_edge (P q) (R i) g else g)
               else g).
    assert (Hg1 : (if 0 <? d
                   then a ← avail !! i;
                        Some (if (a <? d) && has_node (R i) g
                              then add_edge (P q) (R i) g else g)
                   else Some g) = Some g1).
    { unfold g1. destruct (0 <? d); [|done]. by rewrite Ha. }
    rewrite Hg1. simpl.
    assert (Hnodes : ∀ r, R r ∈ nodes g1 ↔ R r ∈ nodes g).
    { intros r. unfold g1. destruct (0 <? d); [|done].
      destruct ((a <? d) && has_node (R i) g) eqn:Hc; [|done].
      apply andb_true_iff in Hc as [_ Hc]. apply has_node_true in Hc.
      rewrite nodes_add_edge. split; [|tauto].
      intros [?|[[= ->]|?]]; done. }
    assert (Hedges : ∀ e, e ∈ edges g1 ↔
              e ∈ edges g ∨
              (0 < d ∧ a < d ∧ R i ∈ nodes g ∧ e = (P q, R i))).
    { intros e. unfold g1. destruct (0 <? d) eqn:Hd.
      - apply Z.ltb_lt in Hd.
        destruct ((a <? d) && has_node (R i) g) eqn:Hc.
        + apply andb_true_iff in Hc as [Hc1 Hc2].
          apply Z.ltb_lt in Hc1. apply has_node_true in Hc2.
          rewrite edges_add_edge. split; [|tauto].
          intros [->|?]; [|by left]. by right.
        + split; [by left|]. intros [?|(_ & Hc1 & Hc2 & _)]; [done|].
          apply Z.ltb_lt in Hc1. apply has_node_true in Hc2.
          by rewrite Hc1, Hc2 in Hc.
      - apply Z.ltb_ge in Hd. split; [by left|]. intros [?|(? & _)]; [done|lia]. }
    destruct (IH (S i) g1) as (g' & -> & Hn' & He'); [lia|].
    exists g'. split_and!; [done| |].
    + intros r. by rewrite Hn', Hnodes.
    + intros e. rewrite He', Hedges. split.
      * intros [[?|(? & ? & ? & ->)]|(j & d' & a' & ? & ? & Hav & ? & Hr & ->)].
        -- by left.
        -- right. exists 0%nat, d, a. rewrite Nat.add_0_r. by split_and!.
        -- right. exists (S j), d', a'.
           replace (i + S j)%nat with (S i + j)%nat by lia.
           split_and!; try done. by apply Hnodes.
      * intros [?|([|j] & d' & a' & Hj & ? & Hav & ? & Hr & ->)]; simplify_eq/=.
        -- by do 2 left.
        -- rewrite Nat.add_0_r in *. simplify_eq. left. right. by split_and!.
        -- right. exists j, d', a'.
           replace (i + S j)%nat with (S i + j)%nat in * by lia.
           split_and!; try done. by apply Hnodes.
Qed.

Lemma request_graph_spec n avail ps : ∀ g,
  length avail = n →
  Forall (wf_process n) ps →
  ∃ g', request_graph avail ps g = Some g' ∧
        (∀ r, R r ∈ nodes g' ↔ R r ∈ nodes g) ∧
        (∀ e, e ∈ edges g' ↔
              e ∈ edges g ∨
              ∃ p j d a, p ∈ ps ∧ needed_resources p !! j = Some d ∧ 0 < d ∧
                         avail !! j = Some a ∧ a < d ∧
                         R j ∈ nodes g ∧ e = (P (pid p), R j)).
Proof.
  intros g Ha Hps. revert g.
  induction Hps as [|p ps (_ & _ & Hnd) Hps IH]; intros g; simpl.
  - exists g. split_and!; [done..|]. intros e. split; [by left|].
    intros [?|(? & ? & ? & ? & Hp & _)]; [done|]. by apply elem_of_nil in Hp.
  - destruct (request_edges_spec avail (pid p) (needed_resources p) 0 g)
      as (g1 & -> & Hn1 & He1); [simpl; lia|].
    simpl. destruct (IH g1) as (g' & -> & Hn' & He').
    exists g'. split_and!; [done| |].
    + intros r. by rewrite Hn', Hn1.
    + intros e. rewrite He', He1. split.
      * intros [[?|(j & d & a & ? & ? & ? & ? & ? & ->)]
               |(p' & j & d & a & ? & ? & ? & ? & ? & Hr & ->)].
        -- by left.
        -- right. exists p, j, d, a. split_and!; try done. apply list_elem_of_here.
        -- right. exists p', j, d, a. split_and!; try done.
           ++ by apply list_elem_of_further.
           ++ by apply Hn1.
      * intros [?|(p' & j & d & a & Hp & ? & ? & ? & ? & Hr & ->)]; [by do 2 left|].
        apply elem_of_cons in Hp as [->|Hp].
        -- left. right. by exists j, d, a.
        -- right. exists p', j, d, a. split_and!; try done. by apply Hn1.
Qed.

(** The graph of a well-formed ledger: its edges are the allocation edges
    and the request edges towards held resources. *)
Lemma build_graph_spec n rm :
  wf n rm →
  ∃ g, build_graph rm = Some g ∧
       ∀ e, e ∈ edges g ↔ allocation_edge rm e ∨ request_edge rm e.
Proof.
  intros [Ha Hps]. unfold build_graph.
  destruct (request_graph_spec n (available_resources rm) (processes rm)
              (allocation_graph (processes rm)) Ha Hps) as (g & -> & _ & He).
  exists g. split; [done|]. intros e. rewrite He. unfold allocation_graph.
  rewrite allocation_fold_edges. unfold edges at 1. simpl.
  unfold allocation_edge, request_edge, holds, waits. split.
  - intros [[Hnil|(p & j & a & ? & ? & ? & ->)]
           |(p & j & d & a & ? & ? & ? & ? & ? & Hr & ->)].
    + by apply elem_of_nil in Hnil.
    + left. exists p, j. split; [|done]. split; [done|]. by exists a.
    + right. exists p, j. split_and!; try done.
      * by exists d, a.
      * apply allocation_fold_resources in Hr as [Hnil|(p' & a' & ? & ? & ?)].
        -- by apply elem_of_nil in Hnil.
        -- exists p'. split; [done|]. by exists a'.
  - intros [(p & j & [? (a & ? & ?)] & ->)
           |(p & j & [? (d & a & ? & ? & ? & ?)] & (p' & ? & a' & ? & ?) & ->)].
    + left. right. by exists p, j, a.
    + right. exists p, j, d, a. split_and!; try done.
      apply allocation_fold_resources. right. by exists p', a'.
Qed.

(** ** Cycles *)

Lemma chain_cons e c :
  chain (e :: c) ↔ (∀ e', head c = Some e' → e.2 = e'.1) ∧ chain c.
Proof.
  destruct c as [|e' c]; simpl.
  - split; [by intros _; split|done].
  - split.
    + intros [? ?]. split; [|done]. by intros ? [= <-].
    + intros [H ?]. split; [|done]. by apply H.
Qed.

Lemma chain_app_cons l1 e l2 :
  chain (l1 ++ e :: l2) ↔ chain (l1 ++ [e]) ∧ chain (e :: l2).
Proof.
  induction l1 as [|x l1 IH].
  - simpl. tauto.
  - rewrite <- !app_comm_cons.
    rewrite (chain_cons x (l1 ++ e :: l2)), (chain_cons x (l1 ++ [e])), IH.
    destruct l1; simpl; tauto.
Qed.

(** In a cycle, the end of every edge is the start of an edge of the
    cycle. *)
Lemma cycle_next g c u v :
  is_cycle g c → (u, v) ∈ c → ∃ w, (v, w) ∈ c.
Proof.
  intros (Hne & _ & Hchain & Hclose) Hin.
  apply list_elem_of_split in Hin as (l1 & l2 & ->).
  destruct l2 as [|[v' w] l2].
  - rewrite last_snoc in Hclose. simpl in Hclose.
    destruct (l1 ++ [(u, v)]) as [|[a b] l] eqn:Heq; [done|].
    simpl in Hclose. simplify_eq. exists b. rewrite <- Heq. apply elem_of_app.
    destruct l1; simplify_eq/=.
    + right. apply list_elem_of_here.
    + left. apply list_elem_of_here.
  - apply chain_app_cons in Hchain as [_ Hchain]. simpl in Hchain.
    destruct Hchain as [-> _]. exists w. apply elem_of_app. right.
    apply list_elem_of_further, list_elem_of_here.
Qed.

Lemma cycle_source g c u v : is_cycle g c → (u, v) ∈ c → v ∈ cycle_sources c.
Proof.
  intros Hc Hin. destruct (cycle_next g c u v Hc Hin) as [w Hw].
  unfold cycle_sources. apply list_elem_of_fmap. by exists (v, w).
Qed.

(** In a cycle, the start of every edge is the end of an edge of the
    cycle. *)
Lemma cycle_prev g c u v :
  is_cycle g c → (u, v) ∈ c → ∃ w, (w, u) ∈ c.
Proof.
  intros (Hne & _ & Hchain & Hclose) Hin.
  apply list_elem_of_split in Hin as (l1 & l2 & ->).
  destruct l1 as [|[a b] l1 _] using rev_ind.
  - revert Hclose. simpl.
    destruct (last _) as [[a b]|] eqn:Hlast; simpl; [|done]. intros [= ->].
    apply last_Some in Hlast as [l' Hl']. exists a. rewrite Hl'.
    apply elem_of_app. right. apply list_elem_of_here.
  - rewrite <- app_assoc in Hchain. simpl in Hchain.
    apply chain_app_cons in Hchain as [_ Hchain]. simpl in Hchain.
    destruct Hchain as [-> _]. exists a. rewrite <- app_assoc.
    apply elem_of_app. right. apply list_elem_of_here.
Qed.

(** A cycle that repeats an edge can be cut short. *)
Lemma cycle_cut g l1 e l2 l3 :
  is_cycle g (l1 ++ e :: l2 ++ e :: l3) → is_cycle g (l1 ++ e :: l3).
Proof.
  intros (_ & Hin & Hchain & Hclose). split_and!.
  - by destruct l1.
  - rewrite !Forall_app, !Forall_cons, !Forall_app, !Forall_cons in *. tauto.
  - apply chain_app_cons in Hchain as [H1 H2].
    rewrite app_comm_cons in H2. apply chain_app_cons in H2 as [_ H2].
    apply chain_app_cons. done.
  - rewrite last_app_cons in *. rewrite app_comm_cons, last_app_cons in Hclose.
    rewrite Hclose. by destruct l1.
Qed.

Lemma not_NoDup_split {A} `{EqDecision A} (l : list A) :
  ¬ NoDup l → ∃ l1 x l2 l3, l = l1 ++ x :: l2 ++ x :: l3.
Proof.
  induction l as [|x l IH]; intros Hnd.
  - destruct Hnd. constructor.
  - destruct (decide (x ∈ l)) as [Hin|Hnin].
    + apply list_elem_of_split in Hin as (l2 & l3 & ->). by exists [], x, l2, l3.
    + destruct IH as (l1 & y & l2 & l3 & ->).
      { intros H. apply Hnd. by constructor. }
      by exists (x :: l1), y, l2, l3.
Qed.

Lemma cycle_shorten g : ∀ n c,
  length c = n → is_cycle g c → ∃ c', is_cycle g c' ∧ NoDup c'.
Proof.
  induction n as [n IH] using lt_wf_ind. intros c Hn Hc.
  destruct (decide (NoDup c)) as [?|Hnd]; [by exists c|].
  apply not_NoDup_split in Hnd as (l1 & e & l2 & l3 & ->).
  apply cycle_cut in Hc. apply (IH (length (l1 ++ e :: l3))) with (c := l1 ++ e :: l3).
  - subst n. rewrite !length_app. simpl. rewrite length_app. simpl. lia.
  - done.
  - done.
Qed.

(** ** The search for a closed walk meets the contract *)

Lemma elem_of_successors g u v : v ∈ successors g u ↔ (u, v) ∈ edges g.
Proof.
  unfold successors. rewrite list_elem_of_bind, elem_of_edges. split.
  - intros ([w vs] & Hv & Hg). simpl in Hv. case_decide; simplify_eq.
    + by exists vs.
    + by apply elem_of_nil in Hv.
  - intros (vs & Hg & Hv). exists (u, vs). simpl. by rewrite decide_True.
Qed.

Lemma first_some_Some {A B} (f : A → option B) l y :
  first_some f l = Some y → ∃ x, x ∈ l ∧ f x = Some y.
Proof.
  induction l as [|x l IH]; simpl; [done|].
  destruct (f x) as [y'|] eqn:Hx.
  - intros [= <-]. exists x. split; [apply list_elem_of_here|done].
  - intros H. destruct (IH H) as (x' & ? & ?). exists x'.
    split; [by apply list_elem_of_further|done].
Qed.

Lemma first_some_is_Some {A B} (f : A → option B) l x :
  x ∈ l → is_Some (f x) → is_Some (first_some f l).
Proof.
  induction l as [|x' l IH]; intros Hin Hx; simpl.
  - by apply elem_of_nil in Hin.
  - destruct (f x') eqn:Hx'; [by eexists|].
    apply elem_of_cons in Hin as [->|Hin]; [|by apply IH].
    rewrite Hx' in Hx. by destruct Hx.
Qed.

Lemma closed_walk_sound g start : ∀ fuel cur c,
  closed_walk g fuel start cur = Some c →
  Forall (λ e, e ∈ edges g) c ∧ chain c ∧
  fst <$> head c = Some cur ∧ snd <$> last c = Some start.
Proof.
  induction fuel as [|fuel IH]; intros cur c; simpl; [done|].
  intros H. apply first_some_Some in H as (v & Hv & H).
  apply elem_of_successors in Hv. case_decide as Hs.
  - simplify_eq. split_and!; try done. by constructor.
  - destruct (closed_walk g fuel start v) as [c'|] eqn:Hw; simplify_eq/=.
    destruct (IH _ _ Hw) as (Hin & Hchain & Hhead & Hlast).
    split_and!; try done.
    + by constructor.
    + destruct c' as [|e' c']; [done|]. simpl in *. by simplify_eq.
    + rewrite last_cons. destruct (last c'); simpl in *; by simplify_eq.
Qed.

Lemma closed_walk_complete g start : ∀ fuel cur w,
  w ≠ [] → Forall (λ e, e ∈ edges g) w → chain w →
  fst <$> head w = Some cur → snd <$> last w = Some start →
  (length w ≤ fuel)%nat →
  is_Some (closed_walk g fuel start cur).
Proof.
  induction fuel as [|fuel IH]; intros cur w Hne Hin Hchain Hhead Hlast Hlen.
  - destruct w; [done|simpl in Hlen; lia].
  - destruct w as [|[u v] w]; [done|]. simpl in Hhead. simplify_eq. clear Hne.
    apply Forall_cons in Hin as [Huv Hin]. simpl.
    apply (first_some_is_Some _ _ v); [by apply elem_of_successors|].
    case_decide as Hs; [by eexists|].
    destruct (IH v w) as [c Hc]; try done.
    + intros ->. simpl in Hlast. by simplify_eq.
    + by apply chain_cons in Hchain as [_ ?].
    + apply chain_cons in Hchain as [Hc _].
      destruct w as [|e' w]; simpl in *.
      * by simplify_eq.
      * by rewrite <- (Hc e' eq_refl).
    + rewrite last_cons in Hlast. destruct (last w) eqn:Hl; [done|].
      apply last_None in Hl as ->. simpl in Hlast. by simplify_eq.
    + simpl in Hlen. lia.
    + rewrite Hc. by eexists.
Qed.

Lemma edge_source_node g u v : (u, v) ∈ edges g → u ∈ nodes g.
Proof.
  rewrite elem_of_edges. intros (vs & Hg & _).
  unfold nodes. apply list_elem_of_fmap. by exists (u, vs).
Qed.

(** [search_cycle] does what the code needs of [networkx.find_cycle]. *)
Lemma search_cycle_contract : nx_find_cycle_contract search_cycle.
Proof.
  intros g. destruct (search_cycle g) as [c|] eqn:Hs.
  - unfold search_cycle in Hs. apply first_some_Some in Hs as (s & _ & Hs).
    destruct (closed_walk_sound _ _ _ _ _ Hs) as (Hin & Hchain & Hhead & Hlast).
    split_and!; try done.
    + intros ->. done.
    + by rewrite Hhead, Hlast.
  - intros c Hc.
    destruct (cycle_shorten g _ c eq_refl Hc) as (c' & Hc' & Hnd).
    destruct Hc' as (Hne & Hin & Hchain & Hclose).
    destruct c' as [|[s v] c'']; [done|].
    assert (Hsome : is_Some (search_cycle g)); [|rewrite Hs in Hsome; by destruct Hsome].
    unfold search_cycle. apply (first_some_is_Some _ _ s).
    + apply (edge_source_node g s v). by apply Forall_cons in Hin as [? _].
    + apply (closed_walk_complete g s _ s ((s, v) :: c'')); try done.
      apply submseteq_length, NoDup_submseteq; [done|].
      by apply Forall_forall.
Qed.

(** ** Detection *)

Lemma elem_of_zip_seq {A} (l : list A) : ∀ j k x,
  (k, x) ∈ zip (seq j (length l)) l ↔ (j ≤ k)%nat ∧ l !! (k - j)%nat = Some x.
Proof.
  induction l as [|y l IH]; intros j k x; simpl.
  - split; [by intros ?%elem_of_nil|]. intros [_ H]. by rewrite lookup_nil in H.
  - rewrite elem_of_cons, IH. split.
    + intros [[= -> ->]|[? Hk]].
      * split; [lia|]. by rewrite Nat.sub_diag.
      * split; [lia|]. by replace (k - j)%nat with (S (k - S j)) by lia.
    + intros [Hj Hk]. destruct (decide (k = j)) as [->|Hne].
      * left. rewrite Nat.sub_diag in Hk. simpl in Hk. by simplify_eq.
      * right. split; [lia|].
        by replace (k - j)%nat with (S (k - S j)) in Hk by lia.
Qed.

Lemma elem_of_positions {A} (f : A → bool) l k :
  k ∈ positions f l ↔ ∃ x, l !! k = Some x ∧ f x = true.
Proof.
  unfold positions. rewrite list_elem_of_fmap. split.
  - intros ([k' x] & -> & Hin). apply list_elem_of_filter in Hin as [Hf Hin].
    apply elem_of_zip_seq in Hin as [_ Hk]. rewrite Nat.sub_0_r in Hk.
    by exists x.
  - intros (x & Hk & Hf). exists (k, x). split; [done|].
    apply list_elem_of_filter. split; [done|].
    apply elem_of_zip_seq. rewrite Nat.sub_0_r. split; [lia|done].
Qed.

Lemma elem_of_processes_on_cycle c ps k :
  k ∈ processes_on_cycle c ps ↔
  ∃ p v, ps !! k = Some p ∧ (P (pid p), v) ∈ c.
Proof.
  unfold processes_on_cycle. rewrite elem_of_positions. split.
  - intros (p & Hk & Hb). apply bool_decide_eq_true in Hb.
    unfold cycle_sources in Hb. apply list_elem_of_fmap in Hb as ([u v] & Hu & Hin).
    simpl in Hu. subst u. by exists p, v.
  - intros (p & v & Hk & Hin). exists p. split; [done|].
    apply bool_decide_eq_true. unfold cycle_sources.
    apply list_elem_of_fmap. by exists (P (pid p), v).
Qed.

(** What [detect_deadlock] does on a well-formed ledger. *)
Lemma detect_deadlock_cases find_cycle n rm :
  nx_find_cycle_contract find_cycle →
  wf n rm →
  ∃ g d,
    build_graph rm = Some g ∧
    (∀ e, e ∈ edges g ↔ allocation_edge rm e ∨ request_edge rm e) ∧
    detect_deadlock find_cycle rm = Some (d, set_deadlock_processes d rm) ∧
    match find_cycle g with
    | Some c =>
        is_cycle g c ∧
        ∀ k, k ∈ d ↔ ∃ p v, processes rm !! k = Some p ∧ (P (pid p), v) ∈ c
    | None => d = []
    end ∧
    ((∀ c, ¬ is_cycle g c) → d = []).
Proof.
  intros Hfc Hwf. destruct (build_graph_spec n rm Hwf) as (g & Hg & Hedges).
  specialize (Hfc g). unfold detect_deadlock. rewrite Hg. simpl.
  destruct (find_cycle g) as [c|] eqn:Hc.
  - exists g, (processes_on_cycle c (processes rm)). rewrite Hc.
    split_and!; try done.
    + intros k. apply elem_of_processes_on_cycle.
    + intros Hno. by destruct (Hno c).
  - exists g, []. rewrite Hc. by split_and!.
Qed.

(** C5, as the code has it.  On a well-formed ledger [detect_deadlock]
    builds the graph whose edges are: [R i → P] for every process [P] that
    holds resource [i], and [P → R i] for every process [P] that needs
    more of resource [i] than is available, provided some process holds
    resource [i].  It returns, and stores, exactly the processes whose
    node starts an edge of the cycle that [find_cycle] reports; when the
    graph has no cycle it returns the empty list. *)
Theorem detect_deadlock_spec find_cycle n rm :
  nx_find_cycle_contract find_cycle →
  wf n rm →
  ∃ g d,
    build_graph rm = Some g ∧
    (∀ e, e ∈ edges g ↔ allocation_edge rm e ∨ request_edge rm e) ∧
    detect_deadlock find_cycle rm = Some (d, set_deadlock_processes d rm) ∧
    match find_cycle g with
    | Some c =>
        is_cycle g c ∧
        ∀ k, k ∈ d ↔ ∃ p v, processes rm !! k = Some p ∧ (P (pid p), v) ∈ c
    | None => d = []
    end ∧
    ((∀ c, ¬ is_cycle g c) → d = []).
Proof. apply detect_deadlock_cases. Qed.

Lemma detect_deadlock_spec_witness :
  detect_deadlock search_cycle scenario2 =
    Some ([0; 1]%nat, set_deadlock_processes [0; 1]%nat scenario2).
Proof.
  destruct (detect_deadlock_spec search_cycle 2 scenario2)
    as (g & d & _ & _ & H & _).
  - exact search_cycle_contract.
  - split; [done|]. repeat constructor.
  - rewrite H. vm_compute in H. by simplify_eq.
Defined.

(** C5, as the specification words it, fails: in scenario 6 every process
    needs more of resource 1 than is available, but nobody holds resource
    1, and the graph has no request edge at all. *)
Lemma request_edge_needs_holder :
  build_graph scenario6 =
    Some [(P 1, []); (P 2, []); (P 3, []); (R 0, [P 3; P 4]); (P 4, [])] ∧
  request_edge_spec scenario6 (P 1, R 1) ∧
  (P 1, R 1) ∉
    edges [(P 1, []); (P 2, []); (P 3, []); (R 0, [P 3; P 4]); (P 4, [])].
Proof.
  split_and!.
  - reflexivity.
  - exists (mkProcess 1 [0; 1] [0; 0] [0; 1] false 0 0 0 0 None None), 1%nat.
    split; [|done]. split.
    + apply list_elem_of_here.
    + exists 1, 0. by split_and!.
  - unfold edges. simpl. intros H.
    repeat (apply elem_of_cons in H as [H|H]; [done|]).
    by apply elem_of_nil in H.
Qed.

(** When every node of the graph has one way out, a cycle that starts an
    edge at [u] starts one at the node after [u] as well. *)
Lemma cycle_sources_next g c (next : node → node) u :
  is_cycle g c →
  (∀ a b, (a, b) ∈ edges g → b = next a) →
  u ∈ cycle_sources c → next u ∈ cycle_sources c.
Proof.
  intros Hc Hnext Hu. unfold cycle_sources in Hu.
  apply list_elem_of_fmap in Hu as ([a b] & -> & Hin). simpl.
  pose proof Hc as (_ & Hall & _). rewrite Forall_forall in Hall.
  rewrite <- (Hnext a b) by by apply Hall.
  by apply (cycle_source g c a b).
Qed.

(** C7.  In scenario 2 (nothing available; process 1 holds resource 0 and
    needs resource 1, process 2 holds resource 1 and needs resource 0),
    whichever cycle [find_cycle] reports, [detect_deadlock] returns both
    processes, and [resolve_deadlock_by_preemption] returns both, with
    [available = [1, 1]], both allocations zero, and what each process
    held added to its need. *)
Theorem scenario2_detect_and_preempt find_cycle :
  nx_find_cycle_contract find_cycle →
  detect_deadlock find_cycle scenario2 =
    Some ([0; 1]%nat, set_deadlock_processes [0; 1]%nat scenario2) ∧
  resolve_deadlock_by_preemption find_cycle scenario2 =
    Some ([0; 1]%nat,
          mkRM [1; 1]
            [ mkProcess 1 [1; 1] [0; 0] [1; 1] false 0 0 0 0 None None;
              mkProcess 2 [1; 1] [0; 0] [1; 1] false 0 0 0 0 None None ]
            [0; 1]%nat).
Proof.
  intros Hfc.
  set (g := [(P 1, [R 1]); (R 0, [P 1]); (P 2, [R 0]); (R 1, [P 2])]).
  set (next := λ u, match u with
                    | P 1 => R 1 | R 1 => P 2 | P 2 => R 0 | _ => P 1
                    end).
  assert (Hg : build_graph scenario2 = Some g) by reflexivity.
  assert (Hnext : ∀ a b, (a, b) ∈ edges g → b = next a).
  { intros a b H. unfold edges, g in H. simpl in H.
    repeat (apply elem_of_cons in H as [H|H]; [by simplify_eq|]).
    by apply elem_of_nil in H. }
  assert (Hdetect : detect_deadlock find_cycle scenario2 =
            Some ([0; 1]%nat, set_deadlock_processes [0; 1]%nat scenario2)).
  { unfold detect_deadlock. rewrite Hg. simpl. specialize (Hfc g).
    destruct (find_cycle g) as [c|].
    - assert (H1 : P 1 ∈ cycle_sources c ∧ P 2 ∈ cycle_sources c).
      { pose proof Hfc as (Hne & Hall & _).
        destruct c as [|[a b] c']; [done|].
        apply Forall_cons in Hall as [Hab _].
        assert (Ha : a ∈ cycle_sources ((a, b) :: c')) by apply list_elem_of_here.
        pose proof (cycle_sources_next g _ next _ Hfc Hnext Ha) as Ha1.
        pose proof (cycle_sources_next g _ next _ Hfc Hnext Ha1) as Ha2.
        pose proof (cycle_sources_next g _ next _ Hfc Hnext Ha2) as Ha3.
        unfold edges, g in Hab. simpl in Hab.
        repeat (apply elem_of_cons in Hab as [Hab|Hab];
                [by simplify_eq; simpl in *|]).
        by apply elem_of_nil in Hab. }
      destruct H1 as [H1 H2].
      pose proof (bool_decide_eq_true_2 _ H1) as H1'.
      pose proof (bool_decide_eq_true_2 _ H2) as H2'.
      unfold processes_on_cycle, positions, scenario2. simpl.
      rewrite !filter_cons. simpl. rewrite H1', H2'. simpl. done.
    - destruct (Hfc [(P 1, R 1); (R 1, P 2); (P 2, R 0); (R 0, P 1)]).
      split_and!; [done| |simpl; by split_and!|done].
      unfold edges, g. simpl. repeat constructor; set_solver. }
  split; [done|].
  unfold resolve_deadlock_by_preemption. rewrite Hdetect. reflexivity.
Qed.

Lemma scenario2_detect_and_preempt_witness :
  fst <$> resolve_deadlock_by_preemption search_cycle scenario2 =
    Some [0; 1]%nat.
Proof.
  destruct (scenario2_detect_and_preempt search_cycle search_cycle_contract)
    as [_ ->].
  reflexivity.
Defined.

(** ** The schedulers *)

Module SchedFacts.
Import Sched.

Lemma same_shape_refl ps : same_shape ps ps.
Proof. by split. Qed.

Lemma same_shape_trans ps1 ps2 ps3 :
  same_shape ps1 ps2 → same_shape ps2 ps3 → same_shape ps1 ps3.
Proof. intros [? H1] [? H2]. split; [congruence|]. intros n ?. by apply H2, H1. Qed.

Lemma same_shape_valid ps ps' k : same_shape ps ps' → valid ps k → valid ps' k.
Proof. intros [Hl _]. unfold valid. lia. Qed.

Lemma update_process_Some f k ps :
  (∀ n p, wf_process n p → wf_process n (f p)) →
  valid ps k →
  ∃ ps', update_process f k ps = Some ps' ∧ same_shape ps ps'.
Proof.
  intros Hf Hk. unfold update_process.
  destruct (lookup_lt_is_Some_2 ps k Hk) as [p Hp]. rewrite Hp. simpl.
  eexists. split; [done|]. split.
  - by rewrite length_insert.
  - intros n Hall. apply Forall_insert; [done|].
    apply Hf. by eapply Forall_lookup_1.
Qed.

Lemma update_waiting_times_Some queue : ∀ ps,
  Forall (valid ps) queue →
  ∃ ps', update_waiting_times queue ps = Some ps' ∧ same_shape ps ps'.
Proof.
  induction queue as [|k queue IH]; intros ps Hq; simpl.
  - exists ps. split; [done|apply same_shape_refl].
  - apply Forall_cons in Hq as [Hk Hq].
    destruct (update_process_Some wait k ps) as (ps1 & -> & Hs1); [done|done|].
    simpl. destruct (IH ps1) as (ps' & -> & Hs').
    + eapply Forall_impl; [exact Hq|]. intros j. by apply same_shape_valid.
    + exists ps'. split; [done|]. by eapply same_shape_trans.
Qed.

Lemma pids_Some ps queue : Forall (valid ps) queue → is_Some (pids ps queue).
Proof.
  intros Hq. unfold pids. apply mapM_is_Some.
  eapply Forall_impl; [exact Hq|]. intros k Hk. simpl.
  destruct (lookup_lt_is_Some_2 ps k Hk) as [p ->]. by eexists.
Qed.

(** Running process [k] for a tick writes one record, stamped with the
    time of the tick, and touches nothing but the processes' scheduling
    fields. *)
Lemma run_and_record_spec k extra s :
  valid (procs s) k →
  Forall (valid (procs s)) (ready_queue s) →
  Forall (valid (procs s)) (completed_processes s) →
  ∃ ps' r,
    run_and_record k extra s =
      Some (set_history (history s ++ [r]) (set_procs ps' s)) ∧
    same_shape (procs s) ps' ∧ h_time r = time s.
Proof.
  intros Hk Hq Hc. unfold run_and_record.
  destruct (update_process_Some execute k (procs s)) as (ps1 & -> & Hs1);
    [done|done|]. simpl.
  destruct (update_waiting_times_Some (ready_queue s) ps1) as (ps2 & -> & Hs2).
  { eapply Forall_impl; [exact Hq|]. intros j. by apply same_shape_valid. }
  simpl. pose proof (same_shape_trans _ _ _ Hs1 Hs2) as Hs.
  destruct (lookup_lt_is_Some_2 ps2 k) as [p ->]; [by apply (same_shape_valid (procs s))|].
  simpl. destruct (pids_Some ps2 (ready_queue s)) as [q ->].
  { eapply Forall_impl; [exact Hq|]. intros j. by apply same_shape_valid. }
  simpl. destruct (pids_Some ps2 (completed_processes s)) as [c ->].
  { eapply Forall_impl; [exact Hc|]. intros j. by apply same_shape_valid. }
  simpl. eexists _, _. split; [done|]. split; done.
Qed.

Lemma Forall_valid_same_shape ps ps' l :
  same_shape ps ps' → Forall (valid ps) l → Forall (valid ps') l.
Proof.
  intros Hs Hl. eapply Forall_impl; [exact Hl|]. intros j. by apply same_shape_valid.
Qed.


Lemma dispatch_cases s :
  (running_process s = None ∧ ready_queue s = [] ∧ dispatch s = s) ∨
  (∃ k, running_process s = Some k ∧ dispatch s = s) ∨
  (∃ k q, running_process s = None ∧ ready_queue s = k :: q ∧
          dispatch s = set_running (Some k) (set_ready_queue q s)).
Proof.
  unfold dispatch. destruct (running_process s) as [k|] eqn:Hr.
  - right. left. by exists k.
  - destruct (ready_queue s) as [|k q] eqn:Hq.
    + by left.
    + right. right. by exists k, q.
Qed.

(** What is left to check of [well_formed] after a tick. *)
Lemma well_formed_after a s s' :
  well_formed a s →
  same_shape (procs s) (procs s') →
  (∀ k, running_process s' = Some k → valid (procs s) k) →
  Forall (valid (procs s)) (ready_queue s') →
  Forall (valid (procs s)) (completed_processes s') →
  (a = bankers →
   length (available_resources (resource_manager s')) =
   length (available_resources (resource_manager s))) →
  well_formed a s'.
Proof.
  intros (_ & _ & _ & Hb) Hs Hr Hq Hc Hrm. split_and!; simpl.
  - intros k Hk. by apply (same_shape_valid (procs s)), Hr.
  - by apply (Forall_valid_same_shape (procs s)).
  - by apply (Forall_valid_same_shape (procs s)).
  - intros Ha. destruct (Hb Ha) as (n & Hn & Hall). exists n. split.
    + by rewrite Hrm.
    + by apply Hs.
Qed.

Lemma run_and_record_ready s s1 k extra :
  valid (procs s) k →
  same_shape (procs s) (procs s1) →
  Forall (valid (procs s)) (ready_queue s1) →
  Forall (valid (procs s)) (completed_processes s1) →
  history s1 = history s →
  time s1 = time s →
  ∃ ps' r p,
    run_and_record k extra s1 =
      Some (set_history (history s ++ [r]) (set_procs ps' s1)) ∧
    same_shape (procs s) ps' ∧ h_time r = time s ∧ ps' !! k = Some p.
Proof.
  intros Hk Hs Hq Hc Hh Ht.
  destruct (run_and_record_spec k extra s1) as (ps' & r & -> & Hs' & Hr).
  - by apply (same_shape_valid (procs s)).
  - by apply (Forall_valid_same_shape (procs s)).
  - by apply (Forall_valid_same_shape (procs s)).
  - pose proof (same_shape_trans _ _ _ Hs Hs') as Hs2.
    destruct (lookup_lt_is_Some_2 ps' k) as [p Hp];
      [by apply (same_shape_valid (procs s))|].
    exists ps', r, p. rewrite Hh. split_and!; try done. by rewrite Hr.
Qed.

Lemma FCFS_run_spec s s1 k :
  well_formed fcfs s →
  valid (procs s) k →
  running_process s1 = Some k →
  same_shape (procs s) (procs s1) →
  Forall (valid (procs s)) (ready_queue s1) →
  completed_processes s1 = completed_processes s →
  history s1 = history s →
  time s1 = time s →
  ∃ s2 r, FCFS_run k s1 = Some s2 ∧ well_formed fcfs s2 ∧ time s2 = time s ∧
          history s2 = history s ++ [r] ∧ h_time r = time s.
Proof.
  intros Hwf Hk Hrun Hs Hq Hc Hh Ht. pose proof Hwf as (_ & _ & Hcv & _).
  unfold FCFS_run.
  destruct (run_and_record_ready s s1 k (λ _, (None, None)))
    as (ps' & r & p & -> & Hs' & Hr & Hp); try done; [by rewrite Hc|].
  cbn [mbind option_bind procs set_history set_procs]. rewrite Hp.
  cbn [mbind option_bind]. eexists _, r. split; [done|].
  destruct (remaining_time p <=? 0); simpl; rewrite ?Hc, ?Hrun.
  - split_and!; try done. apply (well_formed_after fcfs s); simpl; try done.
    apply Forall_app. split; [done|]. by repeat constructor.
  - split_and!; try done. apply (well_formed_after fcfs s); simpl;
      rewrite ?Hc, ?Hrun; try done. by intros ? [= <-].
Qed.

Lemma FCFS_step_spec s :
  well_formed fcfs s →
  ∃ s', FCFS_step s = Some s' ∧ well_formed fcfs s' ∧ time s' = time s + 1 ∧
        ((idle fcfs s ∧ s' = Scheduler_step s) ∨
         (¬ idle fcfs s ∧
          ∃ r, history s' = history s ++ [r] ∧ h_time r = time s)).
Proof.
  intros Hwf. pose proof Hwf as (Hr & Hq & Hc & _). unfold FCFS_step.
  destruct (dispatch_cases s)
    as [(Hrun & Hqueue & ->)|[(k & Hrun & ->)|(k & q & Hrun & Hqueue & ->)]].
  - rewrite Hrun. simpl. exists (Scheduler_step s). split_and!; try done.
    by left.
  - rewrite Hrun.
    destruct (FCFS_run_spec s s k) as (s2 & r & -> & Hwf2 & Ht & Hh & Hrt);
      try done; try (by apply Hr); try apply same_shape_refl.
    simpl. exists (Scheduler_step s2). split_and!; try done.
    + simpl. by rewrite Ht.
    + right. split; [intros [? _]; congruence|]. by exists r.
  - rewrite Hqueue in Hq. apply Forall_cons in Hq as [Hvk Hvq]. simpl.
    destruct (FCFS_run_spec s (set_running (Some k) (set_ready_queue q s)) k)
      as (s2 & r & -> & Hwf2 & Ht & Hh & Hrt); try done; try apply same_shape_refl.
    simpl. exists (Scheduler_step s2). split_and!; try done.
    + simpl. by rewrite Ht.
    + right. split; [intros [_ ?]; simpl in *; congruence|]. by exists r.
Qed.

Lemma RoundRobin_run_spec s s1 k :
  well_formed rr s →
  valid (procs s) k →
  running_process s1 = Some k →
  same_shape (procs s) (procs s1) →
  Forall (valid (procs s)) (ready_queue s1) →
  completed_processes s1 = completed_processes s →
  history s1 = history s →
  time s1 = time s →
  ∃ s2 r, RoundRobin_run k s1 = Some s2 ∧ well_formed rr s2 ∧
          time s2 = time s ∧
          history s2 = history s ++ [r] ∧ h_time r = time s.
Proof.
  intros Hwf Hk Hrun Hs Hq Hc Hh Ht. pose proof Hwf as (_ & _ & Hcv & _).
  unfold RoundRobin_run.
  destruct (run_and_record_ready s
              (set_current_quantum (current_quantum s1 + 1) s1) k
              (λ s, (Some (current_quantum s), None)))
    as (ps' & r & p & -> & Hs' & Hr & Hp); try done; [by simpl; rewrite Hc|].
  cbn [mbind option_bind procs set_history set_procs]. rewrite Hp.
  cbn [mbind option_bind]. eexists _, r. split; [done|].
  destruct (remaining_time p <=? 0);
    [|destruct (time_quantum _ <=? current_quantum _)];
    simpl; rewrite ?Hc, ?Hrun.
  - split_and!; try done. apply (well_formed_after rr s); simpl; try done.
    apply Forall_app. split; [done|]. by repeat constructor.
  - split_and!; try done. apply (well_formed_after rr s); simpl;
      rewrite ?Hc; try done.
    apply Forall_app. split; [done|]. by repeat constructor.
  - split_and!; try done. apply (well_formed_after rr s); simpl;
      rewrite ?Hc, ?Hrun; try done. by intros ? [= <-].
Qed.

Lemma RoundRobin_step_spec s :
  well_formed rr s →
  ∃ s', RoundRobin_step s = Some s' ∧ well_formed rr s' ∧ time s' = time s + 1 ∧
        ((idle rr s ∧ s' = Scheduler_step s) ∨
         (¬ idle rr s ∧
          ∃ r, history s' = history s ++ [r] ∧ h_time r = time s)).
Proof.
  intros Hwf. pose proof Hwf as (Hr & Hq & Hc & _). unfold RoundRobin_step.
  destruct (running_process s) as [k|] eqn:Hrun;
    [|destruct (ready_queue s) as [|k q] eqn:Hqueue].
  - rewrite Hrun.
    destruct (RoundRobin_run_spec s s k) as (s2 & r & -> & Hwf2 & Ht & Hh & Hrt);
      try done; try (by apply Hr); try apply same_shape_refl.
    simpl. exists (Scheduler_step s2). split_and!; try done.
    + simpl. by rewrite Ht.
    + right. split; [intros [? _]; congruence|]. by exists r.
  - rewrite Hrun. simpl. exists (Scheduler_step s). split_and!; try done.
    left. by split.
  - apply Forall_cons in Hq as [Hvk Hvq].
    unfold dispatch. rewrite Hrun, Hqueue. simpl.
    destruct (RoundRobin_run_spec s
                (set_current_quantum 0
                   (set_running (Some k) (set_ready_queue q s))) k)
      as (s2 & r & -> & Hwf2 & Ht & Hh & Hrt); try done; try apply same_shape_refl.
    simpl. exists (Scheduler_step s2). split_and!; try done.
    + simpl. by rewrite Ht.
    + right. split; [intros [_ ?]; simpl in *; congruence|]. by exists r.
Qed.


Lemma all_of_is_Some {A} (f : A → option bool) l :
  Forall (λ x, is_Some (f x)) l → is_Some (all_of f l).
Proof.
  induction 1 as [|x l [b Hb] _ IH]; simpl; [by eexists|].
  rewrite Hb. simpl. destruct b; [done|by eexists].
Qed.

Lemma all_le_is_Some a b : length a = length b → is_Some (np.all_le a b).
Proof. intros H. destruct (all_le_same a b H) as (r & -> & _). by eexists. Qed.

Lemma admissible_is_Some n s k :
  length (available_resources (resource_manager s)) = n →
  Forall (wf_process n) (procs s) →
  Forall (valid (procs s)) (ready_queue s) →
  valid (procs s) k →
  is_Some (admissible s k).
Proof.
  intros Ha Hps Hq Hk. unfold admissible.
  destruct (lookup_lt_is_Some_2 _ _ Hk) as [p Hp]. rewrite Hp. simpl.
  destruct (Forall_lookup_1 _ _ _ _ Hps Hp) as (_ & _ & Hnd).
  destruct (all_le_is_Some (needed_resources p)
              (available_resources (resource_manager s))) as [fits ->];
    [congruence|].
  simpl. destruct fits; [|by eexists].
  unfold Bankers_is_safe. rewrite Hp. simpl.
  unfold np.sub. rewrite broadcast_same by congruence. simpl.
  destruct (np.any_neg _); [by eexists|].
  apply all_of_is_Some. apply Forall_forall. intros j Hj.
  apply list_elem_of_filter in Hj as [_ Hj].
  rewrite Forall_forall in Hq. specialize (Hq j Hj).
  destruct (lookup_lt_is_Some_2 _ _ Hq) as [pj Hpj]. rewrite Hpj. simpl.
  destruct (Forall_lookup_1 _ _ _ _ Hps Hpj) as (_ & _ & Hndj).
  apply all_le_is_Some. rewrite length_zip_with. lia.
Qed.

Lemma find_admissible_spec n s queue : ∀ i,
  length (available_resources (resource_manager s)) = n →
  Forall (wf_process n) (procs s) →
  Forall (valid (procs s)) (ready_queue s) →
  Forall (valid (procs s)) queue →
  ∃ found, find_admissible s i queue = Some found ∧
           ∀ j k, found = Some (j, k) → valid (procs s) k.
Proof.
  intros i Ha Hps Hq. revert i.
  induction queue as [|k queue IH]; intros i Hqueue; simpl.
  - by exists None.
  - apply Forall_cons in Hqueue as [Hk Hqueue].
    destruct (admissible_is_Some n s k Ha Hps Hq Hk) as [ok ->]. simpl.
    destruct ok; [|by apply IH].
    eexists. split; [done|]. by intros ? ? [= _ <-].
Qed.

Lemma allocate_to_spec n s i k :
  length (available_resources (resource_manager s)) = n →
  Forall (wf_process n) (procs s) →
  valid (procs s) k →
  ∃ s1, allocate_to i k s = Some s1 ∧
        running_process s1 = Some k ∧
        same_shape (procs s) (procs s1) ∧
        ready_queue s1 = delete i (ready_queue s) ∧
        completed_processes s1 = completed_processes s ∧
        history s1 = history s ∧ time s1 = time s ∧
        length (available_resources (resource_manager s1)) = n.
Proof.
  intros Ha Hps Hk. unfold allocate_to.
  destruct (lookup_lt_is_Some_2 _ _ Hk) as [p Hp]. rewrite Hp. simpl.
  destruct (Forall_lookup_1 _ _ _ _ Hps Hp) as (Hmx & Hal & Hnd).
  rewrite isub_same, iadd_same by congruence. simpl.
  eexists. split; [done|]. simpl. split_and!; try done.
  - split; [by rewrite length_insert|]. intros m Hall.
    apply Forall_insert; [done|].
    destruct (Forall_lookup_1 _ _ _ _ Hall Hp) as (? & ? & ?).
    split_and!; simpl; [done| |].
    + unfold vadd. rewrite length_zip_with. lia.
    + unfold np.zeros_like. by rewrite length_fmap.
  - unfold vsub. rewrite length_zip_with. lia.
Qed.

Lemma Bankers_run_spec s s1 k :
  well_formed bankers s →
  valid (procs s) k →
  running_process s1 = Some k →
  same_shape (procs s) (procs s1) →
  Forall (valid (procs s)) (ready_queue s1) →
  completed_processes s1 = completed_processes s →
  history s1 = history s →
  time s1 = time s →
  length (available_resources (resource_manager s1)) =
    length (available_resources (resource_manager s)) →
  ∃ s2 r, Bankers_run k s1 = Some s2 ∧ well_formed bankers s2 ∧
          time s2 = time s ∧
          history s2 = history s ++ [r] ∧ h_time r = time s.
Proof.
  intros Hwf Hk Hrun Hs Hq Hc Hh Ht Hrm.
  pose proof Hwf as (_ & _ & Hcv & Hb).
  destruct (Hb eq_refl) as (n & Ha & Hps).
  unfold Bankers_run.
  destruct (run_and_record_ready s s1 k
              (λ s, (None, Some (available_resources (resource_manager s)))))
    as (ps' & r & p & -> & Hs' & Hr & Hp); try done; [by rewrite Hc|].
  cbn [mbind option_bind procs set_history set_procs]. rewrite Hp.
  cbn [mbind option_bind].
  destruct Hs' as [Hl' Hshape'].
  destruct (Forall_lookup_1 _ _ _ _ (Hshape' n Hps) Hp) as (_ & Hal & _).
  destruct (remaining_time p <=? 0).
  - simpl. rewrite iadd_same by congruence. simpl.
    eexists _, r. split; [done|]. simpl. rewrite ?Hc.
    split_and!; try done. apply (well_formed_after bankers s); simpl; try done.
    + apply Forall_app. split; [done|]. by repeat constructor.
    + intros _. unfold vadd. rewrite length_zip_with. lia.
  - eexists _, r. split; [done|]. simpl.
    split_and!; try done. apply (well_formed_after bankers s); simpl;
      rewrite ?Hc, ?Hrun; try done. by intros ? [= <-].
Qed.

Lemma Bankers_step_spec s :
  well_formed bankers s →
  ∃ s', Bankers_step s = Some s' ∧ well_formed bankers s' ∧
        time s' = time s + 1 ∧
        ((idle bankers s ∧ s' = Scheduler_step s) ∨
         (¬ idle bankers s ∧
          ∃ r, history s' = history s ++ [r] ∧ h_time r = time s)).
Proof.
  intros Hwf. pose proof Hwf as (Hr & Hq & Hc & Hb).
  destruct (Hb eq_refl) as (n & Ha & Hps).
  unfold Bankers_step.
  destruct (running_process s) as [k|] eqn:Hrun.
  - cbn [mbind option_bind]. rewrite Hrun.
    destruct (Bankers_run_spec s s k) as (s2 & r & -> & Hwf2 & Ht & Hh & Hrt);
      try done; try (by apply Hr); try apply same_shape_refl.
    simpl. exists (Scheduler_step s2). split_and!; try done.
    + simpl. by rewrite Ht.
    + right. split; [intros [? _]; congruence|]. by exists r.
  - unfold Bankers_dispatch.
    destruct (find_admissible_spec n s (ready_queue s) 0 Ha Hps Hq Hq)
      as (found & Hfound & Hvalid).
    rewrite Hfound. cbn [mbind option_bind].
    destruct found as [[i k]|].
    + pose proof (Hvalid i k eq_refl) as Hk.
      destruct (allocate_to_spec n s i k Ha Hps Hk)
        as (s1 & -> & Hrun1 & Hs1 & Hq1 & Hc1 & Hh1 & Ht1 & Ha1).
      cbn [mbind option_bind]. rewrite Hrun1.
      destruct (Bankers_run_spec s s1 k) as (s2 & r & -> & Hwf2 & Ht & Hh & Hrt);
        try done; try congruence.
      { rewrite Hq1. by apply Forall_delete. }
      simpl. exists (Scheduler_step s2). split_and!; try done.
      * simpl. by rewrite Ht.
      * right. split; [intros [_ ?]; simpl in *; congruence|]. by exists r.
    + cbn [mbind option_bind]. rewrite Hrun. simpl.
      exists (Scheduler_step s). split_and!; try done. left. by split.
Qed.


Lemma step_spec a s :
  well_formed a s →
  ∃ s', step a s = Some s' ∧ well_formed a s' ∧ time s' = time s + 1 ∧
        ((idle a s ∧ s' = Scheduler_step s) ∨
         (¬ idle a s ∧
          ∃ r, history s' = history s ++ [r] ∧ h_time r = time s)).
Proof.
  destruct a; [apply FCFS_step_spec|apply RoundRobin_step_spec|
               apply Bankers_step_spec].
Qed.

Lemma steps_spec a n : ∀ s,
  well_formed a s →
  ∃ s', steps (step a) n s = Some s' ∧
        time s' = time s + Z.of_nat n ∧
        (length (history s') ≤ length (history s) + n)%nat.
Proof.
  induction n as [|n IH]; intros s Hwf.
  - exists s. simpl. split_and!; [done|lia|lia].
  - destruct (step_spec a s Hwf) as (s1 & Hs1 & Hwf1 & Ht1 & Hh1).
    destruct (IH s1 Hwf1) as (s' & Hs' & Ht' & Hh').
    exists s'. cbn [steps]. rewrite Hs1. simpl. rewrite Hs'.
    split_and!; [done|lia|].
    destruct Hh1 as [[_ ->]|(_ & r & Hr & _)]; simpl in *; [lia|].
    rewrite Hr, length_app in Hh'. simpl in Hh'. lia.
Qed.

(** C8, as the code has it.  For FCFS, Round-Robin and the Banker's
    scheduler alike, a [step] of a well-formed scheduler returns and
    advances the clock by one.  On a tick with nothing to run (nothing
    running and, for FCFS and Round-Robin, an empty ready queue, for the
    Banker's scheduler, no ready process that fits and is safe to take in)
    it changes nothing else: no record is written.  On every other tick it
    appends one record, stamped with the time of the tick.  So after [n]
    steps the clock has advanced by [n] and the history has grown by at
    most [n] records. *)
Theorem step_time_and_history a s :
  well_formed a s →
  (∃ s', step a s = Some s' ∧ time s' = time s + 1 ∧
         ((idle a s ∧ s' = Scheduler_step s) ∨
          (¬ idle a s ∧
           ∃ r, history s' = history s ++ [r] ∧ h_time r = time s))) ∧
  (∀ n, ∃ s', steps (step a) n s = Some s' ∧
              time s' = time s + Z.of_nat n ∧
              (length (history s') ≤ length (history s) + n)%nat).
Proof.
  intros Hwf. split.
  - destruct (step_spec a s Hwf) as (s' & ? & _ & ? & ?). by exists s'.
  - intros n. by apply steps_spec.
Qed.

Lemma well_formed_init ps : well_formed fcfs (FCFS_init ps).
Proof.
  split_and!; simpl; try done.
  assert (H : Forall (valid (init_process <$> ps))
                (imap (λ k p, (default 0 (arrival_time p), k))
                   (init_process <$> ps)).*2).
  { apply Forall_forall. intros k Hk.
    apply list_elem_of_fmap in Hk as ([t k'] & -> & Hk).
    apply elem_of_lookup_imap in Hk as (i & p & [= _ ->] & Hp).
    by apply lookup_lt_Some in Hp. }
  revert H. generalize (imap (λ k p, (default 0 (arrival_time p), k))
                          (init_process <$> ps)).
  generalize (init_process <$> ps). intros qs l.
  induction l as [|x l IH]; simpl; [done|].
  intros [Hx Hl]%Forall_cons. specialize (IH Hl).
  revert IH. generalize (foldr insert_asc [] l). clear -Hx.
  intros l. induction l as [|y l IH]; simpl; intros Hl.
  - by repeat constructor.
  - destruct (y.1 <? x.1); simpl.
    + apply Forall_cons in Hl as [? ?]. constructor; [done|]. by apply IH.
    + by constructor.
Qed.

Lemma step_time_and_history_witness :
  ∃ s', steps (step fcfs) 3
          (FCFS_init [mkProcess 1 [] [] [] false 0 0 0 0 (Some 2) None]) =
          Some s' ∧
        time s' = 3 ∧ (length (history s') ≤ 3)%nat.
Proof.
  destruct (step_time_and_history fcfs
              (FCFS_init [mkProcess 1 [] [] [] false 0 0 0 0 (Some 2) None]))
    as [_ H].
  - apply well_formed_init.
  - destruct (H 3%nat) as (s' & ? & ? & ?). by exists s'.
Defined.

(** C8, as the specification words it, fails: the Banker's scheduler set
    up on scenario 2 can take in no process; its first [step] advances the
    clock to 1 and leaves the history empty. *)
Lemma idle_tick_not_recorded :
  ∃ s', Bankers_step (Bankers_init scenario2 (processes scenario2)) = Some s' ∧
        running_process s' = None ∧ time s' = 1 ∧ history s' = [].
Proof. eexists. split; [reflexivity|]. by split_and!. Qed.

End SchedFacts.

(** ** Safe-sequence re-derivation *)

Module ResolverFacts.
Import Resolver.

Lemma add_row_lookup row : ∀ m i total,
  (i + m ≤ length total)%nat →
  (i + m ≤ length row)%nat →
  ∃ total', add_row i m row total = Some total' ∧
            length total' = length total ∧
            ∀ j, total' !! j =
                 if decide (i ≤ j < i + m)%nat
                 then t ← total !! j; r ← row !! j; Some (t + r)
                 else total !! j.
Proof.
  induction m as [|m IH]; intros i total Ht Hr; simpl.
  - exists total. split_and!; [done..|]. intros j. case_decide; [lia|done].
  - destruct (lookup_lt_is_Some_2 total i) as [t Hti]; [lia|].
    destruct (lookup_lt_is_Some_2 row i) as [r Hri]; [lia|].
    rewrite Hti, Hri. simpl.
    destruct (IH (S i) (<[i := t + r]> total)) as (total' & -> & Hl & Hj);
      [rewrite length_insert; lia|lia|].
    rewrite length_insert in Hl.
    exists total'. split_and!; [done..|]. intros j. rewrite Hj.
    destruct (decide (j = i)) as [->|Hne].
    + rewrite decide_False by lia. rewrite decide_True by lia.
      rewrite list_lookup_insert_eq by lia. by rewrite Hti, Hri.
    + rewrite list_lookup_insert_ne by done.
      repeat case_decide; try lia; done.
Qed.

Lemma add_row_same row total :
  length row = length total →
  add_row 0 (length total) row total = Some (zip_with Z.add total row).
Proof.
  intros H.
  destruct (add_row_lookup row (length total) 0 total) as (total' & -> & Hl & Hj);
    [lia..|].
  f_equal. apply list_eq. intros j. rewrite Hj, lookup_zip_with.
  case_decide as Hd; [done|].
  rewrite (lookup_ge_None_2 total j) by lia. done.
Qed.

Lemma zip_add_zeros total :
  zip_with Z.add total (replicate (length total) 0) = total.
Proof. induction total as [|t total IH]; simpl; [done|]. by rewrite IH, Z.add_0_r. Qed.

Lemma zero_row_lookup : ∀ m i row,
  (i + m ≤ length row)%nat →
  ∃ row', zero_row i m row = Some row' ∧ length row' = length row ∧
          ∀ j, row' !! j =
               if decide (i ≤ j < i + m)%nat then Some 0 else row !! j.
Proof.
  induction m as [|m IH]; intros i row Hr; simpl.
  - exists row. split_and!; [done..|]. intros j. case_decide; [lia|done].
  - destruct (lookup_lt_is_Some_2 row i) as [r Hri]; [lia|].
    rewrite Hri. simpl.
    destruct (IH (S i) (<[i := 0]> row)) as (row' & -> & Hl & Hj);
      [rewrite length_insert; lia|].
    rewrite length_insert in Hl.
    exists row'. split_and!; [done..|]. intros j. rewrite Hj.
    destruct (decide (j = i)) as [->|Hne].
    + rewrite decide_False by lia. rewrite decide_True by lia.
      by rewrite list_lookup_insert_eq by lia.
    + rewrite list_lookup_insert_ne by done.
      repeat case_decide; try lia; done.
Qed.

Lemma zero_row_same row :
  zero_row 0 (length row) row = Some (replicate (length row) 0).
Proof.
  destruct (zero_row_lookup (length row) 0 row) as (row' & -> & Hl & Hj); [lia|].
  f_equal. apply list_eq. intros j. rewrite Hj.
  case_decide as Hd.
  - by rewrite lookup_replicate_2 by lia.
  - rewrite (lookup_ge_None_2 row j) by lia.
    symmetry. apply lookup_replicate_None. lia.
Qed.

(** With nothing allocated, the need of a process is its maximum. *)
Lemma need_row_zeros maxr :
  need_row maxr (replicate (length maxr) 0) (length maxr) = Some maxr.
Proof.
  unfold need_row. apply mapM_Some. apply Forall2_same_length_lookup.
  split; [by rewrite length_seq|].
  intros i j m Hj Hm. apply lookup_seq in Hj as [-> ?]. simpl.
  rewrite Hm. simpl. rewrite lookup_replicate_2 by done. simpl.
  by rewrite Z.sub_0_r.
Qed.

Lemma released_zeros n :
  mapM (λ j, replicate n 0 !! j) (seq 0 n) = Some (replicate n 0).
Proof.
  apply mapM_Some. apply Forall2_same_length_lookup.
  split; [by rewrite length_seq, length_replicate|].
  intros i j m Hj Hm. apply lookup_seq in Hj as [-> ?]. simpl. done.
Qed.

Lemma can_complete_spec work : ∀ need j,
  (j + length need = length work)%nat →
  ∃ b, can_complete j need work = Some b ∧
       (b = true ↔ Forall2 Z.le need (drop j work)).
Proof.
  induction need as [|d need IH]; intros j Hj; simpl in *.
  - exists true. split; [done|]. split; [|done]. intros _.
    rewrite drop_ge by lia. constructor.
  - destruct (lookup_lt_is_Some_2 work j) as [w Hw]; [lia|].
    rewrite Hw. simpl. rewrite (drop_S work w j Hw).
    destruct (w <? d) eqn:Hlt.
    + exists false. split; [done|]. split; [done|].
      intros [? _]%Forall2_cons. apply Z.ltb_lt in Hlt. lia.
    + destruct (IH (S j)) as (b & -> & Hb); [lia|].
      exists b. split; [done|]. rewrite Hb, Forall2_cons.
      apply Z.ltb_ge in Hlt. tauto.
Qed.


Lemma total_resources_spec n alloc ps : ∀ total,
  length total = n →
  (∀ p, p ∈ ps → ∃ row, alloc !! id p = Some row ∧ length row = n) →
  ∃ total',
    total_resources ps alloc total = Some total' ∧ length total' = n ∧
    total' = foldl (λ t p, zip_with Z.add t (default [] (alloc !! id p)))
               total ps.
Proof.
  induction ps as [|p ps IH]; intros total Ht Hrows; simpl.
  - by exists total.
  - destruct (Hrows p) as (row & Hrow & Hl); [apply list_elem_of_here|].
    rewrite Hrow. simpl.
    rewrite add_row_same by congruence. simpl.
    apply IH.
    + rewrite length_zip_with. lia.
    + intros p' Hp'. apply Hrows. by apply list_elem_of_further.
Qed.

Lemma reset_allocation_spec n ps : ∀ alloc,
  (∀ p, p ∈ ps → ∃ row, alloc !! id p = Some row ∧ length row = n) →
  ∃ alloc',
    reset_allocation n ps alloc = Some alloc' ∧
    ∀ i, alloc' !! i =
         if decide (i ∈ id <$> ps) then Some (replicate n 0) else alloc !! i.
Proof.
  induction ps as [|p ps IH]; intros alloc Hrows; simpl.
  - exists alloc. split; [done|]. intros i. done.
  - destruct (Hrows p) as (row & Hrow & Hl); [apply list_elem_of_here|].
    rewrite Hrow. simpl.
    replace (zero_row 0 n row) with (zero_row 0 (length row) row) by by rewrite Hl.
    rewrite zero_row_same. simpl. rewrite Hl.
    pose proof (lookup_lt_Some _ _ _ Hrow) as Hlt.
    destruct (IH (<[id p := replicate n 0]> alloc)) as (alloc' & -> & Hi).
    { intros p' Hp'. destruct (decide (id p' = id p)) as [->|Hne].
      - exists (replicate n 0). rewrite list_lookup_insert_eq by done.
        by rewrite length_replicate.
      - rewrite list_lookup_insert_ne by done.
        apply Hrows. by apply list_elem_of_further. }
    exists alloc'. split; [done|]. intros i. rewrite Hi. change (list_fmap SProcess nat id ps) with (id <$> ps).
    destruct (decide (i = id p)) as [->|Hne].
    + rewrite list_lookup_insert_eq by done.
      destruct (decide (id p ∈ id p :: (id <$> ps))) as [_|Hn];
        [by case_decide|].
      destruct Hn. apply list_elem_of_here.
    + rewrite list_lookup_insert_ne by done.
      destruct (decide (i ∈ id <$> ps)) as [Hin|Hnin];
        destruct (decide (i ∈ id p :: (id <$> ps))) as [Hin'|Hnin']; try done.
      * destruct Hnin'. by apply list_elem_of_further.
      * apply elem_of_cons in Hin' as [?|?]; done.
Qed.

(** The facts about the state the search runs in: every process has a
    zero allocation row and a maximum row of length [n], and [total] has
    length [n]. *)
Section search.
Variable (n : nat) (st : SystemState) (total : list Z).
Hypothesis Htotal : length total = n.
Hypothesis Hzero : ∀ i, (i < length (processes st))%nat →
  allocation_matrix st !! i = Some (replicate n 0).
Hypothesis Hmax : ∀ i, (i < length (processes st))%nat →
  ∃ row, max_matrix st !! i = Some row ∧ length row = n.

Lemma max_within_cases i :
  (i < length (processes st))%nat →
  max_within st total i ∨ ¬ max_within st total i.
Proof.
  intros Hi. destruct (Hmax i Hi) as (row & Hrow & Hl).
  destruct (can_complete_spec total row 0) as ([] & _ & Hb); [simpl; lia|..].
  - left. exists row. split; [done|]. by apply Hb.
  - right. intros (row' & Hrow' & Hle). simplify_eq.
    by apply Hb in Hle.
Qed.

Lemma search_body_spec i p s :
  (i < length (processes st))%nat →
  work s = total →
  (i < length (finish s))%nat →
  ((finish s !! i = Some true ∨ ¬ max_within st total i) ∧
   search_body st i p s = Some s) ∨
  (finish s !! i = Some false ∧ max_within st total i ∧
   ∃ step, search_body st i p s =
             Some (mkSearch (work s) (<[i := true]> (finish s))
                     (safe_sequence s ++ [id p])
                     (resolution_steps s ++ [step]) true)).
Proof.
  intros Hi Hw Hf.
  destruct (lookup_lt_is_Some_2 _ _ Hf) as [f Hfi].
  destruct (Hmax i Hi) as (maxr & Hmaxr & Hl).
  assert (Hneed : need_row maxr (replicate n 0) (length total) = Some maxr).
  { rewrite Htotal, <- Hl. apply need_row_zeros. }
  assert (Hadd : add_row 0 (length total) (replicate n 0) total = Some total).
  { rewrite add_row_same by (rewrite length_replicate; lia).
    rewrite <- Htotal. by rewrite zip_add_zeros. }
  assert (Hrel : mapM (λ j, replicate n 0 !! j) (seq 0 (length total)) =
                 Some (replicate n 0)).
  { rewrite Htotal. apply released_zeros. }
  destruct (can_complete_spec total maxr 0) as (b & Hcan & Hb); [simpl; lia|].
  unfold search_body. rewrite Hfi. simpl.
  destruct f; [left; split; [by left|done]|].
  rewrite Hmaxr, (Hzero i Hi). simpl. rewrite Hw, Hneed. simpl.
  rewrite Hcan. simpl. destruct b.
  - right. split_and!; [done| |].
    + exists maxr. split; [done|]. by apply Hb.
    + rewrite Hadd. simpl. rewrite Hrel. simpl. by eexists.
  - left. split; [|done]. right. intros (row & Hrow & Hle). simplify_eq.
    by apply Hb in Hle.
Qed.

(** One pass of the search over the processes from position [i] on. *)
Lemma search_from_spec ps : ∀ i s,
  (i + length ps ≤ length (processes st))%nat →
  work s = total →
  (i + length ps ≤ length (finish s))%nat →
  ∃ s',
    search_from st i ps s = Some s' ∧
    work s' = total ∧
    length (finish s') = length (finish s) ∧
    (∀ j, finish s' !! j = Some true →
          finish s !! j = Some true ∨ max_within st total j) ∧
    (∀ j, finish s !! j = Some true → finish s' !! j = Some true) ∧
    (∀ j, (i ≤ j < i + length ps)%nat → finish s !! j = Some false →
          max_within st total j → finish s' !! j = Some true) ∧
    (found s = true → found s' = true) ∧
    ((∀ j, (i ≤ j < i + length ps)%nat →
           finish s !! j = Some true ∨ ¬ max_within st total j) →
     s' = s) ∧
    ((∀ j, (i ≤ j < i + length ps)%nat →
           finish s !! j = Some false ∧ max_within st total j) →
     safe_sequence s' = safe_sequence s ++ (id <$> ps) ∧
     (ps ≠ [] → found s' = true)).
Proof.
  induction ps as [|p ps IH]; intros i s Hi Hw Hf; simpl in *.
  - exists s. split_and!; try done.
    + intros j ?. by left.
    + intros j ?. lia.
    + intros _. by rewrite app_nil_r.
  - destruct (search_body_spec i p s) as [[Hcase ->]|(Hfi & Hin & step & ->)];
      [lia|done|lia|..]; simpl.
    + destruct (IH (S i) s) as (s' & -> & Hw' & Hl' & HA & HB & HC & HF & HD & HE);
        [lia|done|lia|].
      exists s'. split_and!; try done.
      * intros j Hj Hfj Hwj. destruct (decide (j = i)) as [->|Hne].
        -- destruct Hcase as [?|?]; [congruence|done].
        -- apply HC; [lia|done..].
      * intros Hall. apply HD. intros j Hj. apply Hall. lia.
      * intros Hall. destruct (Hall i) as [? ?]; [lia|].
        destruct Hcase as [?|?]; [congruence|done].
    + pose proof (lookup_lt_Some _ _ _ Hfi) as Hlt.
      destruct (IH (S i)
                  (mkSearch (work s) (<[i := true]> (finish s))
                     (safe_sequence s ++ [id p])
                     (resolution_steps s ++ [step]) true))
        as (s' & -> & Hw' & Hl' & HA & HB & HC & HF & HD & HE);
        [lia|done|simpl; rewrite length_insert; lia|].
      simpl in *. rewrite length_insert in Hl'.
      exists s'. split_and!; try done.
      * intros j Hj. destruct (HA j Hj) as [Hj'|?]; [|by right].
        destruct (decide (j = i)) as [->|Hne]; [by right|].
        left. by rewrite list_lookup_insert_ne in Hj'.
      * intros j Hj. apply HB. destruct (decide (j = i)) as [->|Hne].
        -- by rewrite list_lookup_insert_eq.
        -- by rewrite list_lookup_insert_ne.
      * intros j Hj Hfj Hwj. destruct (decide (j = i)) as [->|Hne].
        -- apply HB. by rewrite list_lookup_insert_eq.
        -- apply HC; [lia| |done]. by rewrite list_lookup_insert_ne.
      * intros _. by apply HF.
      * intros Hall. destruct (Hall i) as [?|?]; [lia|congruence|done].
      * intros Hall. destruct HE as [Hseq _].
        { intros j Hj. rewrite list_lookup_insert_ne by lia. apply Hall. lia. }
        split; [|intros _; by apply HF].
        rewrite Hseq, <- app_assoc. done.
Qed.

Lemma search_loop_spec :
  ∃ s,
    search_loop st (S (length (processes st)))
      (mkSearch total (replicate (length (processes st)) false) [] [] false) =
      Some s ∧
    length (finish s) = length (processes st) ∧
    ((∀ i, (i < length (processes st))%nat → max_within st total i) →
     safe_sequence s = id <$> processes st ∧
     ∀ i, (i < length (processes st))%nat → finish s !! i = Some true) ∧
    (∀ i, (i < length (processes st))%nat → ¬ max_within st total i →
          finish s !! i = Some false).
Proof.
  set (s0 := mkSearch total (replicate (length (processes st)) false)
               [] [] false).
  destruct (search_from_spec (processes st) 0 s0)
    as (s1 & Hs1 & Hw1 & Hl1 & HA & HB & HC & HF & HD & HE);
    [simpl; lia|done|simpl; rewrite length_replicate; lia|].
  simpl in Hl1. rewrite length_replicate in Hl1.
  assert (Hfalse : ∀ j, (j < length (processes st))%nat →
                        finish s0 !! j = Some false).
  { intros j Hj. simpl. by apply lookup_replicate_2. }
  assert (Hunfit : ∀ i, (i < length (processes st))%nat →
                        ¬ max_within st total i →
                        finish s1 !! i = Some false).
  { intros i Hi Hno.
    destruct (lookup_lt_is_Some_2 (finish s1) i) as [b Hb]; [lia|].
    destruct b; [|done]. destruct (HA i Hb) as [Ht|?]; [|done].
    rewrite (Hfalse i Hi) in Ht. done. }
  assert (Hfit : ∀ i, (i < length (processes st))%nat →
                      max_within st total i →
                      finish s1 !! i = Some true).
  { intros i Hi Hin. apply HC; [simpl; lia| |done]. by apply Hfalse. }
  assert (Hseq : (∀ i, (i < length (processes st))%nat →
                       max_within st total i) →
                 safe_sequence s1 = id <$> processes st).
  { intros Hall. destruct HE as [-> _]; [|done]. intros j Hj. split.
    - apply Hfalse. lia.
    - apply Hall. lia. }
  set (s1' := mkSearch (work s1) (finish s1) (safe_sequence s1)
                (resolution_steps s1) false).
  assert (Hloop :
    search_loop st (S (length (processes st))) s0 =
      Some (if found s1 then s1' else s1)).
  { cbn [search_loop].
    change (mkSearch (work s0) (finish s0) (safe_sequence s0)
              (resolution_steps s0) false) with s0.
    rewrite Hs1. cbn [mbind option_bind].
    destruct (found s1) eqn:Hfound; [|done].
    destruct (search_from_spec (processes st) 0 s1')
      as (s2 & Hs2 & _ & _ & _ & _ & _ & _ & HD2 & _);
      [simpl; lia|done|simpl; lia|].
    rewrite HD2 in Hs2.
    2:{ intros j Hj. simpl.
        destruct (max_within_cases j) as [?|?]; [lia|..].
        - left. apply Hfit; [lia|done].
        - by right. }
    destruct (processes st) as [|p0 ps0] eqn:Hps.
    { simpl in Hs1. injection Hs1 as <-. by subst s0. }
    cbn [length search_loop]. rewrite Hps. fold s1'. rewrite Hs2. done. }
  exists (if found s1 then s1' else s1). split; [done|].
  destruct (found s1); simpl; split_and!; try done.
  - intros Hall. split; [by apply Hseq|]. intros i Hi. by apply Hfit, Hall.
  - intros Hall. split; [by apply Hseq|]. intros i Hi. by apply Hfit, Hall.
Qed.

End search.

Lemma forallb_all_true finish :
  (∀ i, (i < length finish)%nat → finish !! i = Some true) →
  forallb (λ b : bool, b) finish = true.
Proof.
  intros H. apply Is_true_true, forallb_True, Forall_lookup. intros i b Hb.
  rewrite (H i) in Hb by by eapply lookup_lt_Some. by simplify_eq.
Qed.

Lemma forallb_some_false finish i :
  finish !! i = Some false → forallb (λ b : bool, b) finish = false.
Proof.
  intros H. destruct (forallb _ finish) eqn:Hall; [|done].
  apply Is_true_true, forallb_True in Hall.
  by pose proof (Forall_lookup_1 _ _ _ _ Hall H).
Qed.

(** C9.  On a system state with [n] resource types whose processes are
    numbered by position, [banker_resolution] sets the available vector to
    the total of every resource (what was available plus what the
    processes held), zeroes every process's allocation row, and searches
    for a completion order by need against the maximum.  It reports
    success, with the processes in list order as the safe sequence, when
    every process's maximum is within the total in every component, and
    failure when some process's maximum is not. *)
Theorem banker_resolution_spec n st :
  wf_state n st →
  ∃ res alloc',
    banker_resolution st =
      Some (res, mkState (system_total st) (processes st) alloc'
                   (max_matrix st) (request_matrix st)) ∧
    (∀ i, (i < length (processes st))%nat →
          alloc' !! i = Some (replicate n 0)) ∧
    ((∀ i, (i < length (processes st))%nat →
           max_within st (system_total st) i) →
     ∃ steps, res = Success (id <$> processes st) steps) ∧
    ((∃ i, (i < length (processes st))%nat ∧
           ¬ max_within st (system_total st) i) →
     res = Failure).
Proof.
  intros (Ha & Hid & Halloc & Hmax).
  assert (Hrows : ∀ p, p ∈ processes st →
            ∃ row, allocation_matrix st !! id p = Some row ∧ length row = n).
  { intros p Hp. apply list_elem_of_lookup in Hp as [i Hp].
    rewrite (Hid i p Hp). apply Halloc. by eapply lookup_lt_Some. }
  unfold banker_resolution.
  destruct (total_resources_spec n (allocation_matrix st) (processes st)
              (available_resources st) Ha Hrows) as (total & -> & Hlt & Htot).
  fold (system_total st) in Htot. subst total. simpl.
  destruct (reset_allocation_spec n (processes st) (allocation_matrix st) Hrows)
    as (alloc' & Hreset & Hlook).
  rewrite Hlt, Hreset. simpl.
  assert (Hzero : ∀ i, (i < length (processes st))%nat →
                       alloc' !! i = Some (replicate n 0)).
  { intros i Hi. rewrite Hlook. rewrite decide_True; [done|].
    destruct (lookup_lt_is_Some_2 _ _ Hi) as [p Hp].
    apply list_elem_of_fmap. exists p. split; [by rewrite (Hid i p Hp)|].
    by eapply list_elem_of_lookup_2. }
  set (st' := mkState (system_total st) (processes st) alloc' (max_matrix st)
                (request_matrix st)).
  destruct (search_loop_spec n st' (system_total st) Hlt Hzero Hmax)
    as (s & Hloop & Hlen & Hall & Hsome).
  simpl in Hloop. rewrite Hloop. simpl.
  eexists _, alloc'. split; [done|]. split_and!; [done| |].
  - intros Hfit. destruct (Hall Hfit) as [-> Hfin].
    rewrite forallb_all_true by (intros i Hi; rewrite Hlen in Hi; by apply Hfin).
    by eexists.
  - intros (i & Hi & Hno). by rewrite (forallb_some_false _ i) by by apply Hsome.
Qed.

Lemma banker_resolution_spec_witness :
  ∃ steps, fst <$> banker_resolution circular_wait =
             Some (Success [0; 1; 2]%nat steps).
Proof.
  destruct (banker_resolution_spec 3 circular_wait) as (res & alloc' & H & _ & Hs & _).
  - split_and!; [done| | |].
    + intros [|[|[|i]]] p Hp; simpl in Hp; by simplify_eq.
    + intros [|[|[|i]]] Hi; simpl in *; try lia; by eexists.
    + intros [|[|[|i]]] Hi; simpl in *; try lia; by eexists.
  - destruct Hs as [steps ->].
    + intros [|[|[|i]]] Hi; simpl in Hi; try lia;
        (eexists; split; [reflexivity|]; repeat constructor; lia).
    + exists steps. by rewrite H.
Defined.

End ResolverFacts.

(** ** Resolution by termination *)

Lemma insert_desc_perm kx l : insert_desc kx l ≡ₚ kx :: l.
Proof.
  induction l as [|ky l IH]; simpl; [done|].
  destruct (kx.1 <? ky.1); [|done]. rewrite IH. apply Permutation_swap.
Qed.

Lemma sorted_desc_perm l : sorted_desc l ≡ₚ l.
Proof.
  induction l as [|kx l IH]; simpl; [done|].
  rewrite insert_desc_perm. by rewrite IH.
Qed.

Lemma insert_desc_sorted kx l :
  StronglySorted (λ a b : Z * nat, b.1 ≤ a.1) l →
  StronglySorted (λ a b : Z * nat, b.1 ≤ a.1) (insert_desc kx l).
Proof.
  induction 1 as [|ky l Hl IH Hky]; simpl.
  - by repeat constructor.
  - destruct (kx.1 <? ky.1) eqn:Hlt.
    + apply Z.ltb_lt in Hlt. constructor; [done|].
      rewrite insert_desc_perm. constructor; [lia|done].
    + apply Z.ltb_ge in Hlt. constructor; [by constructor|].
      constructor; [done|]. eapply Forall_impl; [exact Hky|].
      intros kz ?. simpl in *. lia.
Qed.

Lemma sorted_desc_sorted l :
  StronglySorted (λ a b : Z * nat, b.1 ≤ a.1) (sorted_desc l).
Proof.
  induction l as [|kx l IH]; simpl; [constructor|]. by apply insert_desc_sorted.
Qed.

Lemma StronglySorted_fmap_Forall {A B} (R1 : relation A) (R2 : relation B)
    (Q : A → Prop) (f : A → B) l :
  (∀ x y, Q x → Q y → R1 x y → R2 (f x) (f y)) →
  Forall Q l → StronglySorted R1 l → StronglySorted R2 (f <$> l).
Proof.
  intros HR HQ Hs. induction Hs as [|x l Hl IH Hx]; simpl; [constructor|].
  apply Forall_cons in HQ as [Hqx HQ]. constructor; [by apply IH|].
  apply Forall_fmap. rewrite Forall_forall in Hx, HQ. apply Forall_forall.
  intros y Hy. simpl. apply HR; [done|by apply HQ|by apply Hx].
Qed.

(** The order of termination: the deadlocked processes, the one that holds
    most first. *)
Lemma termination_order_spec rm :
  Forall (λ k, (k < length (processes rm))%nat) (deadlock_processes rm) →
  ∃ order,
    termination_order rm = Some order ∧
    order ≡ₚ deadlock_processes rm ∧
    StronglySorted (λ j k, allocation_sum rm k ≤ allocation_sum rm j) order.
Proof.
  intros Hvalid. unfold termination_order.
  set (key := λ k, (allocation_sum rm k, k)).
  assert (Hkeyed :
    mapM (λ k, p ← processes rm !! k;
               Some (np.sum (allocated_resources p), k))
      (deadlock_processes rm) = Some (key <$> deadlock_processes rm)).
  { apply mapM_Some. apply Forall2_fmap_r. apply Forall_Forall2_diag.
    eapply Forall_impl; [exact Hvalid|]. intros k Hk. simpl.
    destruct (lookup_lt_is_Some_2 _ _ Hk) as [p Hp].
    unfold key, allocation_sum. rewrite Hp. done. }
  rewrite Hkeyed. simpl. eexists. split; [done|]. split.
  - rewrite sorted_desc_perm.
    assert (Heq : (key <$> deadlock_processes rm).*2 = deadlock_processes rm).
    { rewrite <- list_fmap_compose.
      rewrite <- (list_fmap_id (deadlock_processes rm)) at 2.
      by apply list_fmap_ext. }
    by rewrite Heq.
  - apply (StronglySorted_fmap_Forall (λ a b : Z * nat, b.1 ≤ a.1) _
             (λ kx, kx.1 = allocation_sum rm kx.2)).
    + intros x y Hx Hy Hxy. by rewrite <- Hx, <- Hy.
    + rewrite sorted_desc_perm. apply Forall_fmap, Forall_forall. by intros.
    + apply sorted_desc_sorted.
Qed.

Lemma zeros_like_replicate a : np.zeros_like a = replicate (length a) 0.
Proof. unfold np.zeros_like. induction a; simpl; [done|]. by f_equal. Qed.

(** One termination: everything the process holds goes back to the
    available resources, its allocation becomes zero and its need its
    maximum. *)
Lemma terminate_spec n rm k p :
  wf n rm →
  processes rm !! k = Some p →
  terminate k rm =
    Some (set_process k
            (set_needed (max_resources p)
               (set_allocated (replicate n 0) p))
            (set_available
               (vadd (available_resources rm) (allocated_resources p)) rm)) ∧
  wf n (set_process k
          (set_needed (max_resources p) (set_allocated (replicate n 0) p))
          (set_available
             (vadd (available_resources rm) (allocated_resources p)) rm)).
Proof.
  intros Hwf Hk. pose proof Hwf as [Ha _].
  destruct (wf_lookup n rm k p Hwf Hk) as (Hmx & Hal & Hnd).
  split.
  - unfold terminate. rewrite Hk. simpl. rewrite iadd_same by congruence.
    simpl. by rewrite zeros_like_replicate, Hal.
  - apply wf_set_process; [done| |].
    + split_and!; simpl; [done|by rewrite length_replicate|done].
    + unfold vadd. rewrite length_zip_with. lia.
Qed.

Lemma same_ledger_refl a : same_ledger a a.
Proof. by split. Qed.

Lemma same_ledger_sym a b : same_ledger a b → same_ledger b a.
Proof. by intros [? ?]. Qed.

Lemma same_ledger_trans a b c : same_ledger a b → same_ledger b c → same_ledger a c.
Proof. intros [? ?] [? ?]. split; congruence. Qed.

Lemma same_ledger_set_deadlock d rm : same_ledger (set_deadlock_processes d rm) rm.
Proof. by split. Qed.

Lemma same_ledger_eq a b :
  same_ledger a b → deadlock_processes a = deadlock_processes b → a = b.
Proof. destruct a, b. intros [? ?] ?. simpl in *. by subst. Qed.

Lemma wf_same_ledger n a b : same_ledger a b → wf n a → wf n b.
Proof. intros [Ha Hp] [? ?]. split; by rewrite <- ?Ha, <- ?Hp. Qed.

Lemma build_graph_same_ledger a b : same_ledger a b → build_graph a = build_graph b.
Proof. intros [Ha Hp]. unfold build_graph. by rewrite Ha, Hp. Qed.

Lemma detect_same_ledger find_cycle a b :
  same_ledger a b →
  fst <$> detect_deadlock find_cycle a = fst <$> detect_deadlock find_cycle b.
Proof.
  intros Hab. pose proof Hab as [_ Hp]. unfold detect_deadlock.
  rewrite (build_graph_same_ledger a b Hab).
  destruct (build_graph b) as [g|]; simpl; [|done].
  destruct (find_cycle g); simpl; by rewrite ?Hp.
Qed.

Lemma terminate_same_ledger k a b a' :
  same_ledger a b → terminate k a = Some a' →
  ∃ b', terminate k b = Some b' ∧ same_ledger a' b'.
Proof.
  intros [Ha Hp]. unfold terminate. rewrite Ha, Hp.
  destruct (processes b !! k) as [p|]; simpl; [|done].
  destruct (np.iadd _ _); simpl; [|done].
  intros [= <-]. eexists. split; [done|]. split; simpl; by rewrite ?Hp.
Qed.

Lemma terminate_all_same_ledger ks : ∀ a b a',
  same_ledger a b → terminate_all ks a = Some a' →
  ∃ b', terminate_all ks b = Some b' ∧ same_ledger a' b'.
Proof.
  induction ks as [|k ks IH]; intros a b a' Hab; simpl.
  - intros [= <-]. by exists b.
  - destruct (terminate k a) as [a1|] eqn:Ha1; simpl; [|done].
    destruct (terminate_same_ledger k a b a1 Hab Ha1) as (b1 & -> & Hab1).
    simpl. by apply IH.
Qed.

(** Detection returns on every well-formed ledger, with positions of
    processes of the ledger. *)
Lemma detect_deadlock_total find_cycle n rm :
  nx_find_cycle_contract find_cycle →
  wf n rm →
  ∃ d, detect_deadlock find_cycle rm = Some (d, set_deadlock_processes d rm) ∧
       Forall (λ k, (k < length (processes rm))%nat) d.
Proof.
  intros Hfc Hwf.
  destruct (detect_deadlock_cases find_cycle n rm Hfc Hwf)
    as (g & d & _ & _ & Hd & Hc & _).
  exists d. split; [done|].
  destruct (find_cycle g) as [c|]; [|by subst].
  destruct Hc as [_ Hc]. apply Forall_forall. intros k Hk.
  apply Hc in Hk as (p & _ & Hp & _). by eapply lookup_lt_Some.
Qed.

Lemma terminate_length k rm rm' :
  terminate k rm = Some rm' → length (processes rm') = length (processes rm).
Proof.
  unfold terminate. intros H. repeat (simplify_option_eq || case_match).
  simpl. by rewrite length_insert.
Qed.

Lemma terminate_all_wf n ks : ∀ rm rm',
  wf n rm → terminate_all ks rm = Some rm' → wf n rm'.
Proof.
  induction ks as [|k ks IH]; intros rm rm' Hwf; simpl; [by intros [= <-]|].
  destruct (terminate k rm) as [rm1|] eqn:Hterm; simpl; [|done].
  apply IH. unfold terminate in Hterm.
  destruct (processes rm !! k) as [p|] eqn:Hp; simpl in Hterm; [|done].
  destruct (terminate_spec n rm k p Hwf Hp) as [Hterm' Hwf1].
  unfold terminate in Hterm'. rewrite Hp in Hterm'. simpl in Hterm'.
  rewrite Hterm' in Hterm. by injection Hterm as <-.
Qed.

(** A termination changes no pid. *)
Lemma terminate_pids k rm rm' :
  terminate k rm = Some rm' →
  pid <$> processes rm' = pid <$> processes rm.
Proof.
  unfold terminate. intros H. repeat (simplify_option_eq || case_match).
  simpl. rewrite list_fmap_insert. simpl. apply list_insert_id.
  rewrite list_lookup_fmap. by match goal with H : _ !! _ = Some _ |- _ => rewrite H end.
Qed.

Lemma terminate_all_pids ks : ∀ rm rm',
  terminate_all ks rm = Some rm' →
  pid <$> processes rm' = pid <$> processes rm.
Proof.
  induction ks as [|k ks IH]; intros rm rm'; simpl; [by intros [= <-]|].
  destruct (terminate k rm) as [rm1|] eqn:Hterm; simpl; [|done].
  intros H. rewrite (IH _ _ H). by eapply terminate_pids.
Qed.

(** A terminated process holds nothing, and further terminations leave it
    so. *)
Lemma terminate_holds_nothing j k rm rm' :
  terminate j rm = Some rm' →
  j = k ∨ (∃ p, processes rm !! k = Some p ∧
                Forall (λ a, a = 0) (allocated_resources p)) →
  ∃ p, processes rm' !! k = Some p ∧
       Forall (λ a, a = 0) (allocated_resources p).
Proof.
  unfold terminate. intros H Hk.
  destruct (processes rm !! j) as [pj|] eqn:Hj; simpl in H; [|done].
  destruct (np.iadd _ _) as [avail|]; simpl in H; [|done].
  injection H as <-. simpl.
  destruct (decide (j = k)) as [->|Hne].
  - eexists. split.
    + apply list_lookup_insert_eq. by eapply lookup_lt_Some.
    + simpl. unfold np.zeros_like. apply Forall_fmap, Forall_forall. by intros.
  - destruct Hk as [?|(p & Hp & Hzero)]; [done|].
    exists p. split; [|done]. by rewrite list_lookup_insert_ne.
Qed.

Lemma terminate_all_holds_nothing ks : ∀ rm rm' k,
  terminate_all ks rm = Some rm' →
  k ∈ ks ∨ (∃ p, processes rm !! k = Some p ∧
                 Forall (λ a, a = 0) (allocated_resources p)) →
  ∃ p, processes rm' !! k = Some p ∧
       Forall (λ a, a = 0) (allocated_resources p).
Proof.
  induction ks as [|j ks IH]; intros rm rm' k; simpl.
  - intros [= <-] [Hin|H]; [by apply elem_of_nil in Hin|done].
  - destruct (terminate j rm) as [rm1|] eqn:Hterm; simpl; [|done].
    intros Hall Hk. apply (IH rm1 rm' k Hall).
    destruct (decide (k ∈ ks)) as [?|Hnin]; [by left|right].
    apply (terminate_holds_nothing j k rm rm1 Hterm).
    destruct Hk as [Hin|?]; [|by right].
    apply elem_of_cons in Hin as [->|?]; [by left|done].
Qed.

(** With unique pids, a process that holds nothing is on no cycle of the
    graph: the only edges into a process node are allocation edges. *)
Lemma holds_nothing_not_detected find_cycle n rm d rm' k p :
  nx_find_cycle_contract find_cycle →
  wf n rm →
  NoDup (pid <$> processes rm) →
  processes rm !! k = Some p →
  Forall (λ a, a = 0) (allocated_resources p) →
  detect_deadlock find_cycle rm = Some (d, rm') →
  k ∉ d.
Proof.
  intros Hfc Hwf Hnd Hk Hzero Hdet Hin.
  destruct (detect_deadlock_cases find_cycle n rm Hfc Hwf)
    as (g & d0 & _ & He & Hd & Hc & _).
  rewrite Hd in Hdet. injection Hdet as -> _.
  destruct (find_cycle g) as [c|]; [|subst; by apply elem_of_nil in Hin].
  destruct Hc as [Hcyc Hc]. apply Hc in Hin as (p' & v & Hk' & Hedge).
  simplify_eq.
  destruct (cycle_prev g c _ _ Hcyc Hedge) as [w Hw].
  assert (Hwg : (w, P (pid p)) ∈ edges g).
  { destruct Hcyc as (_ & Hall & _). by apply (proj1 (Forall_forall _ _) Hall). }
  apply He in Hwg as [(p2 & i & [Hp2 (a & Ha & Hpos)] & Heq)
                     |(p2 & i & _ & _ & Heq)]; [|done].
  injection Heq as -> Hpid.
  apply list_elem_of_lookup in Hp2 as [k2 Hk2].
  assert (k2 = k) as ->.
  { eapply NoDup_lookup; [exact Hnd| |]; rewrite list_lookup_fmap.
    - by rewrite Hk2.
    - rewrite Hk. simpl. by rewrite Hpid. }
  simplify_eq. pose proof (Forall_lookup_1 _ _ _ _ Hzero Ha). simpl in *. lia.
Qed.

(** Where no partial sum leaves the int64 range, [np.sum] is the sum of
    the integers. *)
Lemma sum_exact a :
  nonneg a → foldr Z.add 0 a < 2 ^ 63 → np.sum a = foldr Z.add 0 a.
Proof.
  unfold np.sum. induction 1 as [|x a Hx Ha IH]; simpl; [done|].
  intros Hlt.
  assert (0 ≤ foldr Z.add 0 a).
  { clear -Ha. induction Ha; simpl; lia. }
  rewrite IH by lia. unfold np.add64. apply wrap_id. unfold np.int64. lia.
Qed.

(** The loop of [resolve_deadlock_by_termination]: it terminates a
    non-empty prefix of the order, detection finds a deadlock after every
    termination but the last, and it stops with the result of the last
    detection, which is empty unless the whole order was used up. *)
Lemma terminate_loop_spec find_cycle n :
  nx_find_cycle_contract find_cycle →
  ∀ order acc rm,
    wf n rm →
    Forall (λ k, (k < length (processes rm))%nat) order →
    order ≠ [] →
    ∃ t ledger rm' d',
      t `prefix_of` order ∧ t ≠ [] ∧
      terminate_all t rm = Some ledger ∧
      terminate_loop find_cycle order acc rm = Some (acc ++ t, rm') ∧
      same_ledger rm' ledger ∧ deadlock_processes rm' = d' ∧
      fst <$> detect_deadlock find_cycle ledger = Some d' ∧
      (d' = [] ∨ t = order) ∧
      (∀ t', t' `prefix_of` t → t' ≠ [] → t' ≠ t →
             ∃ l dt, terminate_all t' rm = Some l ∧
                     fst <$> detect_deadlock find_cycle l = Some dt ∧
                     dt ≠ []).
Proof.
  intros Hfc. induction order as [|k rest IH]; intros acc rm Hwf Hvalid Hne;
    [done|]. clear Hne.
  apply Forall_cons in Hvalid as [Hk Hrest].
  destruct (lookup_lt_is_Some_2 _ _ Hk) as [p Hp].
  destruct (terminate_spec n rm k p Hwf Hp) as [Hterm Hwf1].
  set (rm1 := set_process k
                (set_needed (max_resources p) (set_allocated (replicate n 0) p))
                (set_available
                   (vadd (available_resources rm) (allocated_resources p)) rm))
    in *.
  destruct (detect_deadlock_total find_cycle n rm1 Hfc Hwf1) as (d1 & Hd1 & _).
  assert (Hone : ∀ t', t' `prefix_of` [k] → t' ≠ [] → t' ≠ [k] → False).
  { intros [|k' [|k'' t']] Hpre Hn1 Hn2; [done| |].
    - apply prefix_cons_inv_1 in Hpre. by subst.
    - apply prefix_cons_inv_2, prefix_nil_inv in Hpre. done. }
  cbn [terminate_loop]. rewrite Hterm. cbn [mbind option_bind].
  rewrite Hd1. cbn [mbind option_bind].
  destruct d1 as [|x d1'] eqn:Hd1eq.
  - exists [k], rm1, (set_deadlock_processes [] rm1), [].
    split_and!; try done.
    + by apply prefix_cons, prefix_nil.
    + simpl. by rewrite Hterm.
    + by rewrite Hd1.
    + by left.
    + intros t' ? ? ?. by destruct (Hone t').
  - rewrite <- Hd1eq in *. set (rm2 := set_deadlock_processes d1 rm1) in *.
    destruct rest as [|k2 rest'].
    + exists [k], rm1, rm2, d1. split_and!; try done.
      * simpl. by rewrite Hterm.
      * by rewrite Hd1.
      * by right.
      * intros t' ? ? ?. by destruct (Hone t').
    + destruct (IH (acc ++ [k]) rm2)
        as (t2 & ledger2 & rm' & d' & Hpre & Hne2 & Hall2 & Hloop & Hsame &
            Hcache & Hdet & Hlast & Hmid); [done| |done|].
      { eapply Forall_impl; [exact Hrest|]. intros j Hj. simpl.
        rewrite length_insert. done. }
      destruct (terminate_all_same_ledger t2 rm2 rm1 ledger2
                  (same_ledger_set_deadlock d1 rm1) Hall2)
        as (ledger2' & Hall2' & Hsame2).
      exists (k :: t2), ledger2', rm', d'. split_and!; try done.
      * by apply prefix_cons.
      * simpl. by rewrite Hterm.
      * rewrite Hloop. by rewrite <- app_assoc.
      * by eapply same_ledger_trans.
      * by rewrite <- (detect_same_ledger find_cycle ledger2 ledger2').
      * destruct Hlast as [Hl | ->]; [by left|by right].
      * intros [|k' t''] Hpre' Hne' Hneq; [done|].
        pose proof (prefix_cons_inv_1 _ _ _ _ Hpre') as ->.
        apply prefix_cons_inv_2 in Hpre'.
        assert (t'' ≠ t2) by congruence.
        destruct t'' as [|k3 t3].
        -- exists rm1, d1. split_and!.
           ++ simpl. by rewrite Hterm.
           ++ by rewrite Hd1.
           ++ by rewrite Hd1eq.
        -- destruct (Hmid (k3 :: t3)) as (l & dt & Hl & Hdt & Hdne); [done..|].
           destruct (terminate_all_same_ledger _ rm2 rm1 l
                       (same_ledger_set_deadlock d1 rm1) Hl)
             as (l' & Hl' & Hsame').
           exists l', dt. split_and!; [|by rewrite <- (detect_same_ledger find_cycle l l')|done].
           cbn [terminate_all]. rewrite Hterm. done.
Qed.

Lemma detect_deadlock_shape find_cycle rm d rm' :
  detect_deadlock find_cycle rm = Some (d, rm') →
  rm' = set_deadlock_processes d rm.
Proof.
  unfold detect_deadlock. destruct (build_graph rm); simpl; [|done].
  destruct (find_cycle _); by intros [= <- <-].
Qed.

(** C6, as the code has it.  After a detection that found the deadlocked
    processes [d], [resolve_deadlock_by_termination] terminates them in
    descending order of the total they hold, as [np.sum] computes it: it
    terminates a non-empty prefix of that order (so at most as many
    processes as were deadlocked); each termination returns what the
    process holds to the available resources, by the arrays' [+=], zeroes
    its allocation and resets its need to its maximum; detection runs
    after each termination, finds a deadlock after each but the last, and
    the loop stops with the last detection.  Detection after the call
    returns that same result.  It is empty unless every process of [d] was
    terminated, and with unique pids it names no process of [d] again: the
    deadlock that was detected is cleared, and what is left is a deadlock
    of other processes.  Where nothing overflows, [np.sum] and [+=] are
    the sum and the addition of the integers. *)
Theorem termination_spec find_cycle n rm0 d rm :
  nx_find_cycle_contract find_cycle →
  wf n rm0 →
  detect_deadlock find_cycle rm0 = Some (d, rm) →
  d ≠ [] →
  ∃ order terminated ledger rm' d',
    termination_order rm = Some order ∧
    order ≡ₚ d ∧
    StronglySorted (λ j k, allocation_sum rm k ≤ allocation_sum rm j) order ∧
    terminated `prefix_of` order ∧ terminated ≠ [] ∧
    (length terminated ≤ length d)%nat ∧
    terminate_all terminated rm = Some ledger ∧
    resolve_deadlock_by_termination find_cycle rm = Some (terminated, rm') ∧
    same_ledger rm' ledger ∧
    detect_deadlock find_cycle rm' = Some (d', rm') ∧
    (d' = [] ∨ terminated = order) ∧
    (∀ t, t `prefix_of` terminated → t ≠ [] → t ≠ terminated →
          ∃ l dt, terminate_all t rm = Some l ∧
                  fst <$> detect_deadlock find_cycle l = Some dt ∧ dt ≠ []) ∧
    (NoDup (pid <$> processes rm0) → ∀ k, k ∈ d → k ∉ d') ∧
    (∀ l k p, wf n l → processes l !! k = Some p →
       terminate k l =
         Some (set_process k
                 (set_needed (max_resources p)
                    (set_allocated (replicate n 0) p))
                 (set_available
                    (vadd (available_resources l) (allocated_resources p)) l)) ∧
       (no_overflow Z.add (available_resources l) (allocated_resources p) →
        vadd (available_resources l) (allocated_resources p) =
          zip_with Z.add (available_resources l) (allocated_resources p))) ∧
    (∀ k p, processes rm !! k = Some p →
       nonneg (allocated_resources p) →
       foldr Z.add 0 (allocated_resources p) < 2 ^ 63 →
       allocation_sum rm k = foldr Z.add 0 (allocated_resources p)).
Proof.
  intros Hfc Hwf0 Hdet Hne.
  destruct (detect_deadlock_total find_cycle n rm0 Hfc Hwf0) as (d0 & Hd0 & Hvalid).
  rewrite Hd0 in Hdet. injection Hdet as -> <-.
  set (rm := set_deadlock_processes d rm0).
  assert (Hwf : wf n rm) by done.
  destruct (termination_order_spec rm) as (order & Horder & Hperm & Hsorted);
    [done|].
  simpl in Hperm.
  destruct (terminate_loop_spec find_cycle n Hfc order [] rm Hwf)
    as (t & ledger & rm' & d' & Hpre & Hne' & Hall & Hloop & Hsame & Hcache &
        Hdet' & Hlast & Hmid).
  { by rewrite Hperm. }
  { intros ->. apply Permutation_nil_l in Hperm. done. }
  exists order, t, ledger, rm', d'. split_and!; try done.
  - rewrite <- Hperm. by apply prefix_length.
  - unfold resolve_deadlock_by_termination. simpl.
    destruct d as [|x d'']; [done|]. simpl. rewrite Horder. simpl.
    by rewrite Hloop.
  - rewrite <- (detect_same_ledger find_cycle rm' ledger Hsame) in Hdet'.
    destruct (detect_deadlock find_cycle rm') as [[x rm'']|] eqn:Hx; [|done].
    simpl in Hdet'. injection Hdet' as ->.
    apply detect_deadlock_shape in Hx as ->. do 2 f_equal.
    apply same_ledger_eq; [apply same_ledger_set_deadlock|done].
  - intros Hnd k Hk Hk'.
    destruct Hlast as [-> | ->]; [by apply elem_of_nil in Hk'|].
    destruct (terminate_all_holds_nothing order rm ledger k Hall)
      as (p & Hp & Hzero); [left; by rewrite Hperm|].
    pose proof Hsame as [_ Hps].
    rewrite <- (detect_same_ledger find_cycle rm' ledger Hsame) in Hdet'.
    destruct (detect_deadlock find_cycle rm') as [[x rm'']|] eqn:Hx; [|done].
    simpl in Hdet'. injection Hdet' as ->.
    apply (holds_nothing_not_detected find_cycle n rm' d' rm'' k p); try done.
    + eapply wf_same_ledger; [by apply same_ledger_sym|].
      by eapply terminate_all_wf.
    + rewrite Hps, (terminate_all_pids _ _ _ Hall). done.
    + by rewrite Hps.
  - intros l k p Hl Hp. split; [by apply terminate_spec|apply vadd_exact].
  - intros k p Hp H0 Hlt. unfold allocation_sum. rewrite Hp. simpl.
    by apply sum_exact.
Qed.

Lemma termination_spec_witness :
  resolve_deadlock_by_termination search_cycle
    (set_deadlock_processes [0; 1]%nat scenario2) =
  Some ([0]%nat,
        mkRM [1; 0]
          [ mkProcess 1 [1; 1] [0; 0] [1; 1] false 0 0 0 0 None None;
            mkProcess 2 [1; 1] [0; 1] [1; 0] false 0 0 0 0 None None ]
          []).
Proof.
  destruct (termination_spec search_cycle 2 scenario2 [0; 1]%nat
              (set_deadlock_processes [0; 1]%nat scenario2))
    as (order & t & ledger & rm' & d' & _ & _ & _ & _ & _ & _ & _ & H & _).
  - exact search_cycle_contract.
  - split; [done|]. repeat constructor.
  - reflexivity.
  - done.
  - rewrite H. vm_compute in H. by simplify_eq.
Defined.

(** C6, as the specification words it, fails: with two separate circular
    waits, detection reports the first (processes at positions 0 and 1);
    terminating both resolves it, but detection after the call still
    reports the second (positions 2 and 3). *)
Lemma termination_leaves_second_cycle :
  detect_deadlock search_cycle two_cycles =
    Some ([0; 1]%nat, set_deadlock_processes [0; 1]%nat two_cycles) ∧
  ∃ rm', resolve_deadlock_by_termination search_cycle
           (set_deadlock_processes [0; 1]%nat two_cycles) =
           Some ([0; 1]%nat, rm') ∧
         fst <$> detect_deadlock search_cycle rm' = Some [2; 3]%nat.
Proof.
  split; [by vm_compute|].
  destruct (resolve_deadlock_by_termination search_cycle
              (set_deadlock_processes [0; 1]%nat two_cycles))
    as [[t rm']|] eqn:E; vm_compute in E; [|done].
  injection E as <- <-. eexists. split; [reflexivity|]. by vm_compute.
Qed.

(** * Further properties *)

(** ** More on the ledger operations *)









(** ** Safe sequences *)









(** ** Resolution by preemption *)









(** ** Termination conserves the resources *)





(** ** Resolution by taking single units *)









(** ** More on the schedulers *)

Module SchedMore.
Import Sched SchedFacts.




(** *** Round-Robin: the quantum *)





(** *** FCFS: the order of the ready queue *)






(** *** Idle schedulers *)






End SchedMore.
